(** * Suggestion plugin and project-board editor: a shallow embedding

    The development follows the two source files of the repository:

    - the suggestion plugin ([Suggestion]): the plugin state, its [init]
      and [apply] transition, the [handleTextInput] and [decorations]
      props and the view's [update] that fires the renderer hooks;
    - the [Editor] component: [handleDeleteRoute] and the splitter sizes
      kept in local storage.

    JavaScript values are modelled as follows.  A string is its list of
    UTF-16 code units ([jsstring]); document positions are [Z];
    [undefined] and [null] are [None]; numbers that are only stored and
    passed around are IEEE doubles ([float]). *)

From Stdlib Require Import ZArith NArith List String Ascii Bool Lia.
From Stdlib Require Import Floats.PrimFloat.
From stdpp Require Import base tactics option list strings pretty gmap.

Local Open Scope Z_scope.

(** ** JavaScript strings and the [lastWord] regular expression *)

Module JS.

(** A string is its sequence of UTF-16 code units. *)
Definition jsstring := list N.

(** Literals: every character of an ASCII literal is one code unit. *)
Definition js (s : string) : jsstring :=
  map N_of_ascii (list_ascii_of_string s).

(** [s.length] *)
Definition jslength (s : jsstring) : Z := Z.of_nat (length s).

(** Truthiness of a string value: the empty string is falsy. *)
Definition truthy (s : jsstring) : bool :=
  match s with [] => false | _ :: _ => true end.

(** Truthiness of a value that is a string or [undefined]/[null]. *)
Definition truthy_opt (s : option jsstring) : bool :=
  match s with None => false | Some s => truthy s end.

(** The code units matched by [\s] (WhiteSpace and LineTerminator of
    ECMAScript): TAB, LF, VT, FF, CR, SP, NBSP, U+1680, U+2000..U+200A,
    U+2028, U+2029, U+202F, U+205F, U+3000 and U+FEFF. *)
Definition is_whitespace (c : N) : bool :=
  ((9 <=? c) && (c <=? 13) || (c =? 32) || (c =? 160) || (c =? 5760)
   || (8192 <=? c) && (c <=? 8202) || (c =? 8232) || (c =? 8233)
   || (c =? 8239) || (c =? 8287) || (c =? 12288) || (c =? 65279))%N.

(** [\S] *)
Definition non_space (c : N) : bool := negb (is_whitespace c).

(** [/(\S+)$/] tried at one start index: the greedy run of [\S] has to
    be non-empty and has to reach the end of the input, because [$]
    (no [m] flag) only matches there. *)
Definition lastWord_at (s : jsstring) : bool :=
  truthy s && forallb non_space s.

(** [lastWord.exec(text)]: the start indices are tried from left to
    right; the result is the matched substring ([prefixWord[0]]) or
    [None] for [null]. *)
Fixpoint lastWord_exec (text : jsstring) : option jsstring :=
  match text with
  | [] => None
  | _ :: rest =>
      if lastWord_at text then Some text else lastWord_exec rest
  end.

(** [s.startsWith(p)] *)
Fixpoint startsWith (p s : jsstring) : bool :=
  match p, s with
  | [], _ => true
  | _ :: _, [] => false
  | a :: p', b :: s' => (a =? b)%N && startsWith p' s'
  end.

End JS.

(** ** The suggestion plugin: state, [apply] and the props *)

Module Suggestion.
Import JS.

(** [Range] of the editor core. *)
Record Range := { from : Z; to : Z }.

(** [SuggestionPluginState].  The optional fields [range] and
    [decorationID] are [None] when [undefined]; [query] and [text] are
    [None] when [null]. *)
Record SuggestionPluginState := {
  active : bool;
  range : option Range;
  decorationID : option jsstring;
  query : option jsstring;
  text : option jsstring;
  wasCharTyped : bool
}.

(** What [apply] reads from a transaction: the selection ends, the
    resolved position [selection.$from] (its [depth], [before()] and
    [pos]) and the document through
    [doc.textBetween(from, to, '\0', '\0')].  The document model of the
    editing framework is left abstract. *)
Record Transaction := {
  selection_from : Z;
  selection_to : Z;
  position_depth : Z;
  position_before : Z;
  position_pos : Z;
  doc_textBetween : Z -> Z -> jsstring
}.

(** [init()] *)
Definition init : SuggestionPluginState :=
  {| active := false; range := None; decorationID := None;
     query := None; text := None; wasCharTyped := false |}.

(** [next.active = b] on the copy [next]. *)
Definition set_active (b : bool) (s : SuggestionPluginState)
  : SuggestionPluginState :=
  {| active := b; range := range s; decorationID := decorationID s;
     query := query s; text := text s; wasCharTyped := wasCharTyped s |}.

(** The template literal [`id_${n}`], where [n] is the value of
    [Math.floor(Math.random() * 0xFFFFFFFF)]. *)
Definition fresh_decorationID (n : N) : jsstring :=
  js "id_" ++ js (pretty n).

(** [prev.range && (selection.from < prev.range.from ||
    selection.from > prev.range.to)] *)
Definition left_range (prev : SuggestionPluginState) (cursor : Z) : bool :=
  match range prev with
  | None => false
  | Some r => (cursor <? from r) || (cursor >? to r)
  end.

(** [textFrom]: the start of the cursor's parent node, or of the
    document at top level. *)
Definition textFrom (tr : Transaction) : Z :=
  if position_depth tr <=? 0 then 0 else position_before tr.

(** [text]: the document text from [textFrom] to the cursor. *)
Definition text_before_cursor (tr : Transaction) : jsstring :=
  doc_textBetween tr (textFrom tr) (position_pos tr).

(** The [range] computed for the match [m] found in [txt]. *)
Definition match_range (tr : Transaction) (txt m : jsstring) : Range :=
  {| from := textFrom tr + jslength txt - jslength m + 1;
     to := textFrom tr + jslength txt + 1 |}.

(** The final block of [apply]: an inactive state is emptied. *)
Definition clear_if_inactive (next : SuggestionPluginState)
  : SuggestionPluginState :=
  if negb (active next) then
    {| active := active next; range := None; decorationID := None;
       query := None; text := None; wasCharTyped := false |}
  else next.

Section Plugin.
(** The option [allow], and the value drawn from [Math.random] by this
    call (scaled and floored).  The options [char] and [startOfLine] and
    the constant [allowSpaces] are read by no line of the plugin, so
    they are not arguments here. *)
Variable allow : Range -> bool.
Variable rnd : N.

(** The body of [apply] up to the final block; [next] starts as the
    copy [{ ...prev }]. *)
Definition apply_body (transaction : Transaction)
    (prev : SuggestionPluginState) : SuggestionPluginState :=
  let next := prev in
  if negb (wasCharTyped prev) then set_active false next
  else if selection_from transaction =? selection_to transaction then
    let next :=
      if left_range prev (selection_from transaction)
      then set_active false next else next in
    let txt := text_before_cursor transaction in
    if truthy txt then
      match lastWord_exec txt with
      | Some m =>
          let r := match_range transaction txt m in
          if allow r then
            let fresh := fresh_decorationID rnd in
            {| active := true;
               range := Some r;
               decorationID :=
                 if truthy_opt (decorationID prev)
                 then decorationID prev else Some fresh;
               query := Some m;
               text := Some m;
               wasCharTyped := wasCharTyped next |}
          else set_active false next
      | None => set_active false next
      end
    else next
  else set_active false next.

(** [apply(transaction, prev)] *)
Definition apply (transaction : Transaction)
    (prev : SuggestionPluginState) : SuggestionPluginState :=
  clear_if_inactive (apply_body transaction prev).
End Plugin.

(** [handleTextInput(view, from, to, text)].  The plugin state of the
    view ([None] when [getState] yields [undefined]) is mutated in
    place; the result pairs the state afterwards with the returned
    value ([None] for [undefined]). *)
Definition handleTextInput (state : option SuggestionPluginState)
    (input : jsstring) : option SuggestionPluginState * option bool :=
  match state with
  | None => (None, None)
  | Some st =>
      (Some (if truthy input then
               {| active := active st; range := range st;
                  decorationID := decorationID st; query := query st;
                  text := text st; wasCharTyped := true |}
             else st),
       Some false)
  end.

(** Decorations of the view library, as the plugin builds them. *)
Record DecorationAttrs := {
  nodeName : jsstring;
  class : jsstring;
  data_decoration_id : option jsstring
}.

Inductive Decoration :=
| Decoration_inline (dfrom dto : Z) (attrs : DecorationAttrs).

Inductive DecorationSet :=
| DecorationSet_create (decos : list Decoration).

(** The [decorations(state)] prop; [None] is [null]. *)
Definition decorations (decorationTag decorationClass : jsstring)
    (st : SuggestionPluginState) : option DecorationSet :=
  match range st with
  | None => None
  | Some r =>
      if negb (active st) then None
      else Some (DecorationSet_create
             [Decoration_inline (from r) (to r)
                {| nodeName := decorationTag;
                   class := decorationClass;
                   data_decoration_id := decorationID st |}])
  end.

Section KeyDown.
(** The type of keyboard events; the [view] is left out of the props. *)
Variable KeyboardEvent : Type.

(** [SuggestionKeyDownProps] *)
Record SuggestionKeyDownProps := {
  key_event : KeyboardEvent;
  key_range : Range
}.

(** [handleKeyDown(view, event)]; [onKeyDown] is the renderer's hook,
    [None] when the renderer does not define it.  The result pairs the
    returned value ([None] for [undefined]) with the props of the calls
    made to the hook. *)
Definition handleKeyDown
    (onKeyDown : option (SuggestionKeyDownProps -> bool))
    (state : option SuggestionPluginState) (event : KeyboardEvent)
  : option bool * list SuggestionKeyDownProps :=
  match state with
  | None => (None, [])
  | Some st =>
      if negb (active st) then (Some false, [])
      else
        match range st with
        | None => (Some false, [])
        | Some r =>
            let props := {| key_event := event; key_range := r |} in
            match onKeyDown with
            | Some hook => (Some (hook props || false), [props])
            | None => (Some false, [])
            end
        end
  end.
End KeyDown.

(** The plugin states a running editor can hold: the initial one, those
    returned by [apply], and those mutated by [handleTextInput]. *)
Inductive reachable : SuggestionPluginState -> Prop :=
| reachable_init : reachable init
| reachable_apply allow rnd tr prev :
    reachable prev -> reachable (apply allow rnd tr prev)
| reachable_input prev input st :
    reachable prev ->
    fst (handleTextInput (Some prev) input) = Some st ->
    reachable st.

(** *** The view: DOM lookup and renderer hooks *)

(** [DOMRect] *)
Record DOMRect := { rect_x : float; rect_y : float;
                    rect_width : float; rect_height : float }.

(** A DOM element: its attributes and what [getBoundingClientRect()]
    returns.  The document is the list of its elements in tree order. *)
Record Element := {
  attributes : list (jsstring * jsstring);
  getBoundingClientRect : DOMRect
}.

(** [e.getAttribute(name)] *)
Definition getAttribute (name : jsstring) (e : Element) : option jsstring :=
  snd <$> find (fun kv => bool_decide (fst kv = name)) (attributes e).

(** [document.querySelector(`[name="value"]`)]: the first element in
    tree order that carries the attribute with that value. *)
Definition querySelector_attr (document : list Element)
    (name value : jsstring) : option Element :=
  find (fun e => bool_decide (getAttribute name e = Some value)) document.

(** The values a property of the plugin state object can hold. *)
Inductive value :=
| VUndefined
| VNull
| VBool (b : bool)
| VString (s : jsstring)
| VRange (r : Range).

(** Reading the property [key] of a plugin state object; a name the
    object does not have reads [undefined]. *)
Definition get_property (st : SuggestionPluginState) (key : jsstring)
  : value :=
  if bool_decide (key = js "active") then VBool (active st)
  else if bool_decide (key = js "range") then
    match range st with Some r => VRange r | None => VUndefined end
  else if bool_decide (key = js "decorationID") then
    match decorationID st with Some d => VString d | None => VUndefined end
  else if bool_decide (key = js "query") then
    match query st with Some q => VString q | None => VNull end
  else if bool_decide (key = js "text") then
    match text st with Some t => VString t | None => VNull end
  else if bool_decide (key = js "wasCharTyped") then
    VBool (wasCharTyped st)
  else VUndefined.

(** String conversion of a value inside a template literal. *)
Definition template_string (v : value) : jsstring :=
  match v with
  | VUndefined => js "undefined"
  | VNull => js "null"
  | VBool true => js "true"
  | VBool false => js "false"
  | VString s => s
  | VRange _ => js "[object Object]"
  end.

(** The renderer hooks. *)
Inductive Hook := onExit | onUpdate | onStart.

#[export] Instance Hook_eq_dec : EqDecision Hook.
Proof. solve_decision. Defined.

(** The object returned by [render()]: which hooks it defines. *)
Record Renderer := {
  has_onStart : bool;
  has_onUpdate : bool;
  has_onExit : bool
}.

Definition defines (r : Renderer) (h : Hook) : bool :=
  match h with
  | onStart => has_onStart r
  | onUpdate => has_onUpdate r
  | onExit => has_onExit r
  end.

Section View.
(** The item type, the [items] option (its result awaited) and the
    renderer; the [editor] object is constant and left out of the
    [props]. *)
Variable Item : Type.
Variable items : option jsstring -> list Item.
Variable renderer : Renderer.

(** [SuggestionProps]; [command] is kept as the range it hands on to
    the [command] option. *)
Record SuggestionProps := {
  props_range : option Range;
  props_query : option jsstring;
  props_text : option jsstring;
  props_items : list Item;
  props_command_range : option Range;
  decorationNode : option Element;
  clientRect : option (unit -> DOMRect)
}.

(** [renderer?.hook?.(props)]: a call is recorded when the hook is
    defined. *)
Definition call_hook (h : Hook) (props : SuggestionProps)
  : list (Hook * SuggestionProps) :=
  if defines renderer h then [(h, props)] else [].

(** [prev.active && next.active && prev.range.from !== next.range.from];
    [None] is the [TypeError] of reading [from] of [undefined]. *)
Definition moved (prev next : SuggestionPluginState) : option bool :=
  if active prev && active next then
    match range prev, range next with
    | Some rp, Some rn => Some (negb (from rp =? from rn))
    | _, _ => None
    end
  else Some false.

(** [update(view, prevState)], with [prev] and [next] the plugin states
    of [prevState] and [view.state] and [document] the DOM.  The result
    is the sequence of hook calls, or [None] when the body throws. *)
Definition update (document : list Element)
    (prev next : SuggestionPluginState)
  : option (list (Hook * SuggestionProps)) :=
  match moved prev next with
  | None => None
  | Some moved =>
      let started := negb (active prev) && active next in
      let stopped := active prev && negb (active next) in
      let changed := negb started && negb stopped
                     && negb (bool_decide (query prev = query next)) in
      let handleStart := started || moved in
      let handleChange := changed && negb moved in
      let handleExit := stopped || moved in
      if negb handleStart && negb handleChange && negb handleExit
      then Some []
      else
        let state := if handleExit && negb handleStart
                     then prev else next in
        let node :=
          querySelector_attr document (js "data-decoration-id")
            (template_string (get_property state (js "decorationId"))) in
        let props :=
          {| props_range := range state;
             props_query := query state;
             props_text := text state;
             props_items := if handleChange || handleStart
                            then items (query state) else [];
             props_command_range := range state;
             decorationNode := node;
             clientRect :=
               match node with
               | Some n => Some (fun _ => getBoundingClientRect n)
               | None => None
               end |} in
        Some ((if handleExit then call_hook onExit props else [])
              ++ (if handleChange then call_hook onUpdate props else [])
              ++ (if handleStart then call_hook onStart props else []))
  end.
End View.

End Suggestion.

(** ** The [Editor] component of the project board *)

Module EditorComponent.
Import JS.

(** Local storage holds text, and [useLocalStorage] writes a value as
    [JSON.stringify] prints it and reads an item as [JSON.parse] reads
    it.  For a number [x] the round trip
    [JSON.parse(JSON.stringify(x))] is: [NaN] and the two infinities are
    printed [null]; negative zero is printed [0]; every other number is
    printed with the digits that read back as the same number.  [None]
    is [null]. *)
Definition json_number (x : float) : option float :=
  if is_nan x || is_infinity x then None
  else if is_zero x && get_sign x then Some 0%float
  else Some x.

(** The same for an array of numbers. *)
Definition json_array (xs : list float) : list (option float) :=
  json_number <$> xs.

(** The numbers the round trip leaves as they are: the finite ones
    other than negative zero. *)
Definition json_exact (x : float) : bool :=
  is_finite x && negb (is_zero x && get_sign x).

(** The browser's local storage: each item is kept as the value its
    JSON text parses to.  The items are arrays of numbers and [null]s,
    which is what the component's hook writes. *)
Abbreviation LocalStorage := (gmap jsstring (list (option float))).

(** [useLocalStorage(key, initialValue)]: the value parsed from the
    item, or [initialValue] itself when the key is absent, and a setter
    that writes the JSON text of its argument under the key. *)
Definition useLocalStorage (key : jsstring) (initialValue : list float)
    (storage : LocalStorage)
  : list (option float) * (list float -> LocalStorage -> LocalStorage) :=
  (default (Some <$> initialValue) (storage !! key),
   fun v storage' => <[key := json_array v]> storage').

(** What the handlers of the component act on: local storage and the
    [pointerEvents] style of [ref.current] ([None] while [ref.current]
    is [null]). *)
Record Browser := {
  localStorage : LocalStorage;
  ref_pointerEvents : option jsstring
}.

(** The props the component passes to [Splitter]. *)
Record SplitterProps := {
  minWidths : list float;
  initialSizes : list (option float);
  onResizeFinished : float -> list float -> Browser -> Browser;
  onResizeStarted : Browser -> Browser
}.

(** [handleResize], given the setter of the [useLocalStorage] call. *)
Definition handleResize
    (setSizes : list float -> LocalStorage -> LocalStorage)
    (_ : float) (newSizes : list float) (b : Browser) : Browser :=
  {| localStorage := setSizes newSizes (localStorage b);
     ref_pointerEvents := (fun _ => js "auto") <$> ref_pointerEvents b |}.

(** [onResizeStart] *)
Definition onResizeStart (b : Browser) : Browser :=
  {| localStorage := localStorage b;
     ref_pointerEvents := (fun _ => js "none") <$> ref_pointerEvents b |}.

(** The [Splitter] element of one render of [Editor]; the sizes are
    those the hook reads from local storage. *)
Definition render_Splitter (b : Browser) : SplitterProps :=
  let '(sizes, setSizes) :=
    useLocalStorage (js "project-board-splitter-sizes")
      [50%float; 50%float] (localStorage b) in
  {| minWidths := [400%float; 380%float];
     initialSizes := sizes;
     onResizeFinished := handleResize setSizes;
     onResizeStarted := onResizeStart |}.

Section Routes.
(** The routes of the state store: their type, their [id] and the
    store's [deleteRoute] action. *)
Variable Route : Type.
Variable id : Route -> jsstring.
Variable deleteRoute : jsstring -> list Route -> list Route.

(** The store's routes and the component's [selectedRouteID]. *)
Record EditorState := {
  store_routes : list Route;
  selectedRouteID : option jsstring
}.

(** The function [handleDeleteRoute] hands to [setSelectedRouteID];
    [routes] is the list of the render that created the handler. *)
Definition selection_after_delete (routes : list Route)
    (deleted : jsstring) (r : option jsstring) : option jsstring :=
  if bool_decide (r = Some deleted) then
    if (0 <? Z.of_nat (length routes)) then id <$> routes !! 0%nat
    else None
  else None.

(** [handleDeleteRoute(id)], called in a render whose [routes] are the
    store's. *)
Definition handleDeleteRoute (deleted : jsstring) (st : EditorState)
  : EditorState :=
  let routes := store_routes st in
  {| store_routes := deleteRoute deleted (store_routes st);
     selectedRouteID :=
       selection_after_delete routes deleted (selectedRouteID st) |}.
(** The initializer of [useState]: the first route's ID, if any. *)
Definition initialSelectedRouteID (routes : list Route) : option jsstring :=
  if (0 <? Z.of_nat (length routes)) then id <$> routes !! 0%nat
  else None.

(** [routes.find(s => s.id === selectedRouteID)] *)
Definition selectedRoute (routes : list Route)
    (selectedRouteID : option jsstring) : option Route :=
  find (fun s => bool_decide (Some (id s) = selectedRouteID)) routes.

(** The effect [selectDefaultRoute], as the selection it leaves: it
    returns early when the selected route has a truthy ID or there is
    no route, and selects the first route otherwise. *)
Definition selectDefaultRoute (routes : list Route)
    (selectedRouteID : option jsstring) : option jsstring :=
  if truthy_opt (id <$> selectedRoute routes selectedRouteID)
     || (Z.of_nat (length routes) =? 0)
  then selectedRouteID
  else id <$> routes !! 0%nat.
End Routes.

End EditorComponent.

(** ** Concrete documents and states used in the examples *)

Module Scenario.
Import JS Suggestion.

(** [textBetween(a, b, '\0', '\0')] of a document that is one paragraph
    holding [content]: the paragraph opens at position 0 and its text
    starts at position 1. *)
Definition paragraph_textBetween (content : jsstring) (a b : Z) : jsstring :=
  let a' := Z.max a 1 in
  take (Z.to_nat (b - a')) (drop (Z.to_nat (a' - 1)) content).

(** A transaction that leaves an empty selection at [pos] inside that
    paragraph. *)
Definition cursor_at (content : jsstring) (pos : Z) : Transaction :=
  {| selection_from := pos; selection_to := pos;
     position_depth := 1; position_before := 0; position_pos := pos;
     doc_textBetween := paragraph_textBetween content |}.

(** A transaction that selects the text from [a] to [b]. *)
Definition selection_at (content : jsstring) (a b : Z) : Transaction :=
  {| selection_from := a; selection_to := b;
     position_depth := 1; position_before := 0; position_pos := a;
     doc_textBetween := paragraph_textBetween content |}.

Definition allow_all (_ : Range) : bool := true.

(** The initial state after a character went through
    [handleTextInput]. *)
Definition typed : SuggestionPluginState :=
  {| active := false; range := None; decorationID := None;
     query := None; text := None; wasCharTyped := true |}.

(** The state after "ab" was typed into an empty paragraph. *)
Definition after_ab : SuggestionPluginState :=
  {| active := true; range := Some {| from := 1; to := 3 |};
     decorationID := Some (js "id_7");
     query := Some (js "ab"); text := Some (js "ab");
     wasCharTyped := true |}.

(** The state after "abc" was typed. *)
Definition after_abc : SuggestionPluginState :=
  {| active := true; range := Some {| from := 1; to := 4 |};
     decorationID := Some (js "id_7");
     query := Some (js "abc"); text := Some (js "abc");
     wasCharTyped := true |}.

(** A renderer that defines the three hooks. *)
Definition full_renderer : Renderer :=
  {| has_onStart := true; has_onUpdate := true; has_onExit := true |}.

(** The decoration element the view draws for [after_ab]. *)
Definition decoration_span : Element :=
  {| attributes := [(js "class", js "suggestion");
                    (js "data-decoration-id", js "id_7")];
     getBoundingClientRect :=
       {| rect_x := 8%float; rect_y := 8%float;
          rect_width := 16%float; rect_height := 18%float |} |}.

End Scenario.

(** ** The vocabulary of the properties *)

Module Properties.
Import JS Suggestion.

(** The word the regular expression finds before the cursor. *)
Definition word_before_cursor (tr : Transaction) : option jsstring :=
  lastWord_exec (text_before_cursor tr).

(** The claim that a state returned by [apply] is active only behind the
    trigger character: the word before the cursor begins with [char]. *)
Definition active_only_after_trigger (char : jsstring)
    (allow : Range -> bool) (rnd : N) (tr : Transaction)
    (prev : SuggestionPluginState) : Prop :=
  active (apply allow rnd tr prev) = true ->
  exists w, word_before_cursor tr = Some w /\ startsWith char w = true.

(** The claim that the suggestion closes when the cursor leaves its
    range. *)
Definition closes_when_cursor_leaves (allow : Range -> bool) (rnd : N)
    (tr : Transaction) (prev : SuggestionPluginState) : Prop :=
  forall r,
    active prev = true -> range prev = Some r ->
    selection_from tr = selection_to tr ->
    selection_from tr < from r \/ selection_from tr > to r ->
    active (apply allow rnd tr prev) = false.

(** A state is normalized when, being inactive, it carries nothing of
    a suggestion. *)
Definition normalized (s : SuggestionPluginState) : Prop :=
  active s = false ->
  range s = None /\ decorationID s = None /\ query s = None
  /\ text s = None /\ wasCharTyped s = false.

(** An active state has a range that is not empty and a decoration ID
    that is not the empty string; no state holds an empty ID. *)
Definition well_formed (s : SuggestionPluginState) : Prop :=
  decorationID s <> Some []
  /\ (active s = true ->
      (exists r, range s = Some r /\ from r < to r)
      /\ (exists d, decorationID s = Some d)
      /\ wasCharTyped s = true)
  /\ (active s = false ->
      range s = None /\ decorationID s = None /\ query s = None
      /\ text s = None).

(** The hooks of a sequence of calls, in call order. *)
Definition hooks_called {Item : Type}
    (calls : list (Hook * SuggestionProps Item))
  : list Hook := map fst calls.

(** How the plugin state changed, in the words of the claim. *)
Definition became_active (prev next : SuggestionPluginState) : Prop :=
  active prev = false /\ active next = true.

Definition became_inactive (prev next : SuggestionPluginState) : Prop :=
  active prev = true /\ active next = false.

Definition has_moved (prev next : SuggestionPluginState) : Prop :=
  active prev = true /\ active next = true
  /\ from <$> range prev <> from <$> range next.

Definition query_changed (prev next : SuggestionPluginState) : Prop :=
  query prev <> query next.

(** The hooks [update] decides to call, from the two states alone. *)
Definition hook_plan (prev next : SuggestionPluginState)
  : option (list Hook) :=
  match moved prev next with
  | None => None
  | Some m =>
      let started := negb (active prev) && active next in
      let stopped := active prev && negb (active next) in
      let changed := negb started && negb stopped
                     && negb (bool_decide (query prev = query next)) in
      Some ((if stopped || m then [onExit] else [])
            ++ (if changed && negb m then [onUpdate] else [])
            ++ (if started || m then [onStart] else []))
  end.

(** A run of [apply] steps with no text input in between; each step
    comes with the [allow] option's answers and the random draw of that
    call. *)
Definition apply_all
    (steps : list ((Range -> bool) * N * Transaction))
    (s : SuggestionPluginState) : SuggestionPluginState :=
  fold_left (fun st '(allow, rnd, tr) => apply allow rnd tr st) steps s.

(** What an active state of the running plugin looks like: the word
    [w] is query and text, the range is as long as the word, and the
    decoration ID was drawn by some call. *)
Definition suggests (s : SuggestionPluginState) (r : Range) (w : jsstring)
    (n : N) : Prop :=
  range s = Some r /\ query s = Some w /\ text s = Some w
  /\ decorationID s = Some (fresh_decorationID n)
  /\ wasCharTyped s = true
  /\ w <> [] /\ forallb non_space w = true
  /\ to r - from r = jslength w.

(** The shape of a state, by its [active] flag. *)
Definition state_shape (s : SuggestionPluginState) : Prop :=
  if active s then exists r w n, suggests s r w n
  else range s = None /\ decorationID s = None /\ query s = None
       /\ text s = None.

(** The hook sequences one [update] can ask for. *)
Definition hook_plans : list (list Hook) :=
  [[]; [onExit]; [onUpdate]; [onStart]; [onExit; onStart]].

End Properties.

(** ** Runs of the [Editor] component *)

Module EditorRuns.
Import JS EditorComponent.

(** A sequence of finished resizes, each handled by the
    [onResizeFinished] of the render current at that time. *)
Definition resize_all (resizes : list (float * list float)) (b : Browser)
  : Browser :=
  fold_left
    (fun b' '(i, sizes) => onResizeFinished (render_Splitter b') i sizes b')
    resizes b.

(** The store action the component expects: the routes with the given
    ID are removed, the others keep their order. *)
Definition removes_by_id {Route : Type} (id : Route -> jsstring)
    (deleteRoute : jsstring -> list Route -> list Route)
    (deleted : jsstring) (routes : list Route) : Prop :=
  deleteRoute deleted routes
  = List.filter (fun r => negb (bool_decide (id r = deleted))) routes.

End EditorRuns.

(** ** Properties *)

Import JS Suggestion Scenario Properties.

Example typing_ab :
  apply allow_all 7 (cursor_at (js "ab") 3) typed = after_ab.
Proof. reflexivity. Qed.

Example typing_abc :
  apply allow_all 9 (cursor_at (js "abc") 4) after_ab = after_abc.
Proof. reflexivity. Qed.

Example selecting_text_closes :
  apply allow_all 9 (selection_at (js "ab") 1 3) after_ab = init.
Proof. reflexivity. Qed.

Example lastWord_examples :
  lastWord_exec (js "foo bar") = Some (js "bar")
  /\ lastWord_exec (js "foo ") = None
  /\ lastWord_exec (js "") = None
  /\ lastWord_exec (js "/he") = Some (js "/he").
Proof. repeat split; reflexivity. Qed.

(** *** The regular expression *)

Lemma lastWord_at_inv (s : jsstring) :
  lastWord_at s = true -> s <> [] /\ forallb non_space s = true.
Proof.
  unfold lastWord_at. destruct s as [|c s]; simpl; [discriminate|].
  intros H. split; [discriminate| exact H].
Qed.

(** A match is a non-empty suffix of the text without white space, and
    it is the longest such suffix: the code unit before it, if any, is
    white space. *)
Lemma lastWord_exec_Some (txt w : jsstring) :
  lastWord_exec txt = Some w ->
  exists pre, txt = pre ++ w /\ w <> [] /\ forallb non_space w = true
    /\ (pre = [] \/ exists pre' c,
          pre = pre' ++ [c] /\ is_whitespace c = true).
Proof.
  revert w. induction txt as [|c rest IH]; intros w; [discriminate|].
  cbn [lastWord_exec]. destruct (lastWord_at (c :: rest)) eqn:Hat.
  - intros [= <-]. exists []. apply lastWord_at_inv in Hat as [Hne Hall].
    repeat split; auto.
  - intros Hrest. destruct (IH w Hrest) as (pre & -> & Hne & Hall & Hpre).
    exists (c :: pre). repeat split; auto. right.
    destruct Hpre as [-> | (pre' & c' & -> & Hc')].
    + exists [], c. split; [reflexivity|].
      unfold lastWord_at in Hat. cbn in Hat. rewrite Hall in Hat.
      unfold non_space in Hat. destruct (is_whitespace c); [reflexivity|].
      discriminate.
    + exists (c :: pre'), c'. split; [reflexivity| exact Hc'].
Qed.

Lemma lastWord_exec_None (txt : jsstring) :
  lastWord_exec txt = None ->
  txt = [] \/ exists pre c, txt = pre ++ [c] /\ is_whitespace c = true.
Proof.
  induction txt as [|c rest IH]; [now left|].
  cbn [lastWord_exec]. destruct (lastWord_at (c :: rest)) eqn:Hat;
    [discriminate|].
  intros Hrest. right. destruct (IH Hrest) as [-> | (pre & c' & -> & Hc')].
  - exists [], c. split; [reflexivity|].
    unfold lastWord_at in Hat. cbn in Hat. unfold non_space in Hat.
    destruct (is_whitespace c); [reflexivity| discriminate].
  - exists (c :: pre), c'. split; [reflexivity| exact Hc'].
Qed.

Lemma lastWord_exec_truthy (txt w : jsstring) :
  lastWord_exec txt = Some w -> truthy txt = true.
Proof. destruct txt; [discriminate| reflexivity]. Qed.

(** *** The [apply] transition *)

Lemma clear_if_inactive_active (s : SuggestionPluginState) :
  active (clear_if_inactive s) = active s.
Proof. unfold clear_if_inactive. destruct (active s) eqn:E; simpl; auto. Qed.

Lemma clear_if_inactive_false (s : SuggestionPluginState) :
  active s = false -> clear_if_inactive s = init.
Proof. unfold clear_if_inactive. intros ->. reflexivity. Qed.

Lemma clear_if_inactive_true (s : SuggestionPluginState) :
  active s = true -> clear_if_inactive s = s.
Proof. unfold clear_if_inactive. intros ->. reflexivity. Qed.

Lemma apply_inactive_is_init allow rnd tr prev :
  active (apply allow rnd tr prev) = false ->
  apply allow rnd tr prev = init.
Proof.
  unfold apply. rewrite clear_if_inactive_active.
  apply clear_if_inactive_false.
Qed.

(** When a word precedes an empty selection and a character was typed,
    [apply] is decided by [allow] alone. *)
Lemma apply_on_word allow rnd tr prev w :
  wasCharTyped prev = true ->
  selection_from tr = selection_to tr ->
  word_before_cursor tr = Some w ->
  apply allow rnd tr prev =
    if allow (match_range tr (text_before_cursor tr) w) then
      {| active := true;
         range := Some (match_range tr (text_before_cursor tr) w);
         decorationID :=
           if truthy_opt (decorationID prev) then decorationID prev
           else Some (fresh_decorationID rnd);
         query := Some w; text := Some w; wasCharTyped := true |}
    else init.
Proof.
  intros Hty Hsel Hw. unfold apply, apply_body, word_before_cursor in *.
  rewrite Hty, Hsel, Z.eqb_refl. cbn [negb].
  rewrite (lastWord_exec_truthy _ _ Hw), Hw.
  destruct (allow _).
  - rewrite clear_if_inactive_true by reflexivity.
    destruct (left_range prev (selection_to tr)); cbn; rewrite ?Hty;
      reflexivity.
  - apply clear_if_inactive_false. reflexivity.
Qed.

(** Without a word before the cursor the state can only stay as it
    was. *)
Lemma apply_no_word allow rnd tr prev :
  word_before_cursor tr = None ->
  active (apply allow rnd tr prev) = true ->
  text_before_cursor tr = [] /\ wasCharTyped prev = true
  /\ selection_from tr = selection_to tr /\ active prev = true
  /\ left_range prev (selection_from tr) = false
  /\ apply allow rnd tr prev = prev.
Proof.
  intros Hw. unfold apply. rewrite clear_if_inactive_active.
  intros Hact. rewrite (clear_if_inactive_true _ Hact).
  revert Hact. unfold apply_body, word_before_cursor in *.
  destruct (wasCharTyped prev) eqn:Hty; cbn [negb]; [|discriminate].
  destruct (selection_from tr =? selection_to tr) eqn:Hsel;
    [|discriminate].
  apply Z.eqb_eq in Hsel. rewrite Hw.
  destruct (truthy (text_before_cursor tr)) eqn:Htxt; [discriminate|].
  destruct (left_range prev (selection_from tr)) eqn:Hleft;
    [discriminate|].
  intros Hact. repeat split; auto.
  destruct (text_before_cursor tr); [reflexivity| discriminate].
Qed.

Lemma apply_active_typed allow rnd tr prev :
  active (apply allow rnd tr prev) = true ->
  wasCharTyped prev = true /\ selection_from tr = selection_to tr.
Proof.
  unfold apply. rewrite clear_if_inactive_active. unfold apply_body.
  destruct (wasCharTyped prev); cbn [negb]; [|discriminate].
  destruct (selection_from tr =? selection_to tr) eqn:Hsel;
    [|discriminate].
  apply Z.eqb_eq in Hsel. auto.
Qed.

(** C1, as stated, fails: with the default trigger "/" and the default
    [allow], typing "ab" into an empty paragraph activates the
    suggestion although the word before the cursor is "ab". *)
Lemma trigger_char_not_required :
  ~ active_only_after_trigger (js "/") allow_all 7
      (cursor_at (js "ab") 3) typed.
Proof.
  unfold active_only_after_trigger. intros H.
  destruct (H eq_refl) as (w & Hw & Hstart).
  vm_compute in Hw. injection Hw as <-. vm_compute in Hstart.
  discriminate.
Qed.

(** C1, amended: a state returned by [apply] is active only if a
    character was typed, the selection is an empty cursor, and either
    the text before the cursor ends in a non-empty word free of white
    space that [allow] accepts for its range (that word becomes [query]
    and [text]; the trigger character is not consulted), or there is no
    text before the cursor and the previous state, already active with
    the cursor inside its range, is returned unchanged. *)
Theorem apply_active_only_on_word allow rnd tr prev :
  active (apply allow rnd tr prev) = true ->
  wasCharTyped prev = true
  /\ selection_from tr = selection_to tr
  /\ ((exists pre w,
         text_before_cursor tr = pre ++ w
         /\ word_before_cursor tr = Some w
         /\ w <> [] /\ forallb non_space w = true
         /\ allow (match_range tr (text_before_cursor tr) w) = true
         /\ query (apply allow rnd tr prev) = Some w
         /\ text (apply allow rnd tr prev) = Some w)
      \/ (text_before_cursor tr = []
          /\ active prev = true
          /\ left_range prev (selection_from tr) = false
          /\ apply allow rnd tr prev = prev)).
Proof.
  intros Hact. destruct (apply_active_typed _ _ _ _ Hact) as [Hty Hsel].
  split; [exact Hty|]. split; [exact Hsel|].
  destruct (word_before_cursor tr) as [w|] eqn:Hw.
  - left. pose proof (apply_on_word allow rnd tr prev w Hty Hsel Hw) as Happ.
    destruct (lastWord_exec_Some _ _ Hw) as (pre & Hpre & Hne & Hall & _).
    exists pre, w. rewrite Happ in Hact |- *.
    destruct (allow _) eqn:Hallow; [|discriminate].
    repeat split; auto.
  - right.
    destruct (apply_no_word _ _ _ _ Hw Hact) as (? & _ & _ & ? & ? & ?).
    auto.
Qed.

Lemma apply_active_only_on_word_witness :
  active (apply allow_all 7 (cursor_at (js "ab") 3) typed) = true
  /\ query (apply allow_all 7 (cursor_at (js "ab") 3) typed)
     = Some (js "ab").
Proof.
  split; [reflexivity|].
  destruct (apply_active_only_on_word allow_all 7
              (cursor_at (js "ab") 3) typed eq_refl)
    as (_ & _ & [(pre & w & _ & Hw & _ & _ & _ & Hq & _) | (H & _)]).
  - rewrite Hq. rewrite <- Hw. reflexivity.
  - vm_compute in H. discriminate.
Defined.

(** C4, as stated, fails: the suggestion for "ab" covers positions 1 to
    3; with the paragraph reading "ab cd" and the cursor put at 6, past
    the range, [apply] returns an active state, now for "cd". *)
Lemma cursor_leaves_but_stays_active :
  ~ closes_when_cursor_leaves allow_all 9 (cursor_at (js "ab cd") 6)
      after_ab.
Proof.
  intros H.
  specialize (H {| from := 1; to := 3 |} eq_refl eq_refl eq_refl).
  assert (Hleft : 6 < 1 \/ 6 > 3) by lia.
  specialize (H Hleft). vm_compute in H. discriminate.
Qed.

Example moved_to_cd :
  apply allow_all 9 (cursor_at (js "ab cd") 6) after_ab =
  {| active := true; range := Some {| from := 4; to := 6 |};
     decorationID := Some (js "id_7");
     query := Some (js "cd"); text := Some (js "cd");
     wasCharTyped := true |}.
Proof. reflexivity. Qed.

(** C4, amended: when the previous state is active with range
    [from, to] and the selection is a cursor before [from] or after
    [to], the resulting state is inactive (the emptied initial state)
    unless a character was typed and the text before the new cursor ends
    in a word that [allow] accepts; in that case the state is active
    with [range], [query] and [text] recomputed for that word, so the
    suggestion moves instead of closing. *)
Theorem apply_after_leaving_range allow rnd tr prev r :
  active prev = true -> range prev = Some r ->
  selection_from tr = selection_to tr ->
  selection_from tr < from r \/ selection_from tr > to r ->
  (active (apply allow rnd tr prev) = true <->
     wasCharTyped prev = true
     /\ exists w, word_before_cursor tr = Some w
          /\ allow (match_range tr (text_before_cursor tr) w) = true)
  /\ (forall w, word_before_cursor tr = Some w ->
        active (apply allow rnd tr prev) = true ->
        range (apply allow rnd tr prev)
          = Some (match_range tr (text_before_cursor tr) w)
        /\ query (apply allow rnd tr prev) = Some w
        /\ text (apply allow rnd tr prev) = Some w)
  /\ (active (apply allow rnd tr prev) = false ->
        apply allow rnd tr prev = init).
Proof.
  intros Hact Hrange Hsel Hout.
  assert (Hleft : left_range prev (selection_from tr) = true).
  { unfold left_range. rewrite Hrange. apply orb_true_iff.
    destruct Hout; [left; lia | right; lia]. }
  split; [split|split].
  - intros Hnext. destruct (apply_active_typed _ _ _ _ Hnext) as [Hty _].
    split; [exact Hty|].
    destruct (word_before_cursor tr) as [w|] eqn:Hw.
    + exists w. split; [reflexivity|].
      rewrite (apply_on_word allow rnd tr prev w Hty Hsel Hw) in Hnext.
      destruct (allow _); [reflexivity| discriminate].
    + destruct (apply_no_word _ _ _ _ Hw Hnext) as (_ & _ & _ & _ & Hin & _).
      congruence.
  - intros (Hty & w & Hw & Hallow).
    rewrite (apply_on_word allow rnd tr prev w Hty Hsel Hw), Hallow.
    reflexivity.
  - intros w Hw Hnext.
    destruct (apply_active_typed _ _ _ _ Hnext) as [Hty _].
    rewrite (apply_on_word allow rnd tr prev w Hty Hsel Hw) in Hnext |- *.
    destruct (allow _); [|discriminate]. auto.
  - apply apply_inactive_is_init.
Qed.

Lemma apply_after_leaving_range_witness :
  range (apply allow_all 9 (cursor_at (js "ab cd") 6) after_ab)
  = Some {| from := 4; to := 6 |}.
Proof.
  assert (Hleft : 6 < 1 \/ 6 > 3) by lia.
  destruct (apply_after_leaving_range allow_all 9
              (cursor_at (js "ab cd") 6) after_ab {| from := 1; to := 3 |}
              eq_refl eq_refl eq_refl Hleft) as (_ & Hmove & _).
  destruct (Hmove (js "cd") eq_refl eq_refl) as (Hr & _).
  rewrite Hr. reflexivity.
Defined.

(** C5: when the previous state's [wasCharTyped] is false, [apply]
    returns an inactive state whatever the transaction; [wasCharTyped]
    is false initially, [apply] never turns it from false to true, and
    [handleTextInput] (which returns [false] and touches no other
    field) sets it exactly when the entered text is non-empty. *)
Theorem popup_needs_typed_char allow rnd :
  (forall tr prev,
      wasCharTyped prev = false ->
      active (apply allow rnd tr prev) = false)
  /\ wasCharTyped init = false
  /\ (forall tr prev,
        wasCharTyped (apply allow rnd tr prev) = true ->
        wasCharTyped prev = true)
  /\ (forall st input,
        exists st',
          handleTextInput (Some st) input = (Some st', Some false)
          /\ (wasCharTyped st' = true <->
                input <> [] \/ wasCharTyped st = true)
          /\ active st' = active st /\ range st' = range st
          /\ decorationID st' = decorationID st
          /\ query st' = query st /\ text st' = text st).
Proof.
  split; [|split; [|split]].
  - intros tr prev Hty. unfold apply. rewrite clear_if_inactive_active.
    unfold apply_body. rewrite Hty. reflexivity.
  - reflexivity.
  - intros tr prev. unfold apply, clear_if_inactive.
    destruct (active (apply_body allow rnd tr prev)) eqn:Hact;
      cbn [negb wasCharTyped]; [|discriminate].
    intros _. revert Hact. unfold apply_body.
    destruct (wasCharTyped prev); [reflexivity| discriminate].
  - intros st input. unfold handleTextInput.
    eexists. split; [reflexivity|].
    destruct input as [|c input]; cbn.
    + split; [|repeat split].
      split; [intros Hty; right; exact Hty|].
      intros [Hne | Hty]; [congruence | exact Hty].
    + split; [|repeat split].
      split; [intros _; left; discriminate | reflexivity].
Qed.

(** C7: the initial state and every state returned by [apply] are
    normalized. *)
Theorem apply_normalized allow rnd tr prev :
  normalized init /\ normalized (apply allow rnd tr prev).
Proof.
  split; [intros _; repeat split|].
  intros Hact. rewrite (apply_inactive_is_init _ _ _ _ Hact).
  repeat split.
Qed.

(** The flag set afterwards by [handleTextInput] is the one field an
    inactive state of the running plugin can hold on to. *)
Example typed_keeps_flag :
  fst (handleTextInput (Some init) (js "a")) = Some typed
  /\ active typed = false /\ wasCharTyped typed = true.
Proof. repeat split. Qed.

(** *** Invariants of the reachable states *)

Lemma apply_well_formed allow rnd tr prev :
  well_formed prev -> well_formed (apply allow rnd tr prev).
Proof.
  intros (Hid & Hon & Hoff).
  destruct (active (apply allow rnd tr prev)) eqn:Hact.
  2:{ rewrite (apply_inactive_is_init _ _ _ _ Hact).
      repeat split; (discriminate || auto). }
  destruct (apply_active_typed _ _ _ _ Hact) as [Hty Hsel].
  destruct (word_before_cursor tr) as [w|] eqn:Hw.
  - rewrite (apply_on_word allow rnd tr prev w Hty Hsel Hw) in Hact |- *.
    destruct (allow _); [|discriminate].
    destruct (lastWord_exec_Some _ _ Hw) as (pre & Hpre & Hne & _).
    assert (Hd : (if truthy_opt (decorationID prev) then decorationID prev
                  else Some (fresh_decorationID rnd)) <> Some []).
    { destruct (truthy_opt (decorationID prev)); [exact Hid|].
      intros [= E]. }
    split; [exact Hd|]. split; [|discriminate].
    intros _. cbn. repeat split.
    + eexists; split; [reflexivity|]. cbn. unfold jslength.
      destruct w; [congruence|]. cbn [length]. lia.
    + destruct (truthy_opt (decorationID prev)) eqn:E; [|eauto].
      destruct (decorationID prev); [eauto| discriminate].
  - destruct (apply_no_word _ _ _ _ Hw Hact) as (_ & _ & _ & _ & _ & ->).
    exact (conj Hid (conj Hon Hoff)).
Qed.

Lemma reachable_well_formed (s : SuggestionPluginState) :
  reachable s -> well_formed s.
Proof.
  induction 1 as [| allow rnd tr prev _ IH | prev input st _ IH Hin].
  - repeat split; (discriminate || auto).
  - apply apply_well_formed, IH.
  - cbn in Hin. injection Hin as <-. destruct IH as (Hid & Hon & Hoff).
    destruct (truthy input); repeat split; cbn; try apply Hon; try apply Hoff;
      auto.
Qed.

(** The decoration ID survives every step that ends active, whenever
    the previous ID is a non-empty string. *)
Lemma apply_keeps_truthy_id allow rnd tr prev :
  active (apply allow rnd tr prev) = true ->
  truthy_opt (decorationID prev) = true ->
  decorationID (apply allow rnd tr prev) = decorationID prev.
Proof.
  intros Hact Htruthy.
  destruct (apply_active_typed _ _ _ _ Hact) as [Hty Hsel].
  destruct (word_before_cursor tr) as [w|] eqn:Hw.
  - rewrite (apply_on_word allow rnd tr prev w Hty Hsel Hw) in Hact |- *.
    destruct (allow _); [|discriminate]. cbn. rewrite Htruthy. reflexivity.
  - destruct (apply_no_word _ _ _ _ Hw Hact) as (_ & _ & _ & _ & _ & ->).
    reflexivity.
Qed.

(** C8: in every [apply] step of the plugin whose resulting state is
    active, a decoration ID held by the previous state is kept (in
    particular when the previous state is active too), and the resulting
    ID differs from the previous one only when the previous state had
    none, in which case it is the freshly drawn ID. *)
Theorem decorationID_stable allow rnd tr prev :
  reachable prev ->
  active (apply allow rnd tr prev) = true ->
  (forall d, decorationID prev = Some d ->
     decorationID (apply allow rnd tr prev) = Some d)
  /\ (active prev = true ->
      decorationID (apply allow rnd tr prev) = decorationID prev)
  /\ (decorationID (apply allow rnd tr prev) <> decorationID prev ->
      decorationID prev = None
      /\ decorationID (apply allow rnd tr prev)
         = Some (fresh_decorationID rnd)).
Proof.
  intros Hreach Hact.
  destruct (reachable_well_formed _ Hreach) as (Hid & Hon & _).
  assert (Hkeep : forall d, decorationID prev = Some d ->
            decorationID (apply allow rnd tr prev) = Some d).
  { intros d Hd. rewrite <- Hd. apply apply_keeps_truthy_id; [exact Hact|].
    rewrite Hd. destruct d; [exfalso; exact (Hid Hd)| reflexivity]. }
  split; [exact Hkeep|]. split.
  - intros Hprev. destruct (Hon Hprev) as (_ & (d & Hd) & _).
    rewrite (Hkeep d Hd). symmetry. exact Hd.
  - intros Hdiff. destruct (decorationID prev) as [d|] eqn:Hd.
    + exfalso. apply Hdiff. apply Hkeep. reflexivity.
    + split; [reflexivity|].
      destruct (apply_active_typed _ _ _ _ Hact) as [Hty Hsel].
      destruct (word_before_cursor tr) as [w|] eqn:Hw.
      * rewrite (apply_on_word allow rnd tr prev w Hty Hsel Hw) in Hact |- *.
        destruct (allow _); [|discriminate]. cbn. rewrite Hd. reflexivity.
      * destruct (apply_no_word _ _ _ _ Hw Hact) as (_ & _ & _ & _ & _ & E).
        exfalso. apply Hdiff. rewrite E. exact Hd.
Qed.

Corollary reachable_range_defined (s : SuggestionPluginState) :
  reachable s -> active s = true -> is_Some (range s).
Proof.
  intros Hreach Hact.
  destruct (reachable_well_formed s Hreach) as (_ & Hon & _).
  destruct (Hon Hact) as ((r & Hr & _) & _). exists r. exact Hr.
Qed.

Lemma reachable_after_ab : reachable after_ab.
Proof.
  change after_ab with (apply allow_all 7 (cursor_at (js "ab") 3) typed).
  apply reachable_apply.
  apply (reachable_input init (js "a") typed reachable_init).
  reflexivity.
Defined.

Lemma decorationID_stable_witness :
  decorationID (apply allow_all 9 (cursor_at (js "abc") 4) after_ab)
  = Some (js "id_7").
Proof.
  destruct (decorationID_stable allow_all 9 (cursor_at (js "abc") 4)
              after_ab reachable_after_ab eq_refl) as (Hkeep & _).
  apply Hkeep. reflexivity.
Defined.

(** *** The [decorations] prop *)

(** C6: [decorations] is [null] exactly when the state is inactive or
    has no range; otherwise it is the set created from the single inline
    decoration from [range.from] to [range.to] with the configured node
    name and class and the state's decoration ID. *)
Theorem decorations_of_state tag cls (st : SuggestionPluginState) :
  (decorations tag cls st = None <->
     active st = false \/ range st = None)
  /\ (forall r, active st = true /\ range st = Some r ->
        decorations tag cls st =
          Some (DecorationSet_create
                  [Decoration_inline (from r) (to r)
                     {| nodeName := tag; class := cls;
                        data_decoration_id := decorationID st |}])).
Proof.
  unfold decorations. split.
  - destruct (range st) as [r|], (active st); cbn; split; auto;
      try discriminate; intros [H | H]; discriminate.
  - intros r [-> ->]. reflexivity.
Qed.

Example decorations_after_ab :
  decorations (js "span") (js "suggestion") after_ab =
  Some (DecorationSet_create
          [Decoration_inline 1 3
             {| nodeName := js "span"; class := js "suggestion";
                data_decoration_id := Some (js "id_7") |}]).
Proof. reflexivity. Qed.

(** *** The view's [update] *)

Section ViewProperties.
Context {Item : Type}.
Variable items : option jsstring -> list Item.

Lemma call_hook_defined renderer h (props : SuggestionProps Item) :
  defines renderer h = true -> call_hook Item renderer h props = [(h, props)].
Proof. unfold call_hook. intros ->. reflexivity. Qed.

Lemma update_hooks renderer document prev next :
  (forall h, defines renderer h = true) ->
  hooks_called <$> update Item items renderer document prev next
  = hook_plan prev next.
Proof.
  intros Hdef. unfold update, hook_plan.
  destruct (moved prev next) as [m|]; [|reflexivity].
  destruct (active prev), (active next), m,
    (bool_decide (query prev = query next));
    cbn -[js querySelector_attr template_string get_property call_hook];
    rewrite ?call_hook_defined by apply Hdef; reflexivity.
Qed.

Lemma moved_defined prev next :
  (active prev = true -> is_Some (range prev)) ->
  (active next = true -> is_Some (range next)) ->
  exists m, moved prev next = Some m /\ (m = true <-> has_moved prev next).
Proof.
  intros Hprev Hnext. unfold moved, has_moved.
  destruct (active prev) eqn:Hap, (active next) eqn:Han; cbn;
    try (eexists; split; [reflexivity|]; intuition discriminate).
  destruct (Hprev eq_refl) as [rp ->], (Hnext eq_refl) as [rn ->]. cbn.
  eexists; split; [reflexivity|].
  destruct (from rp =? from rn) eqn:Hfrom;
    [apply Z.eqb_eq in Hfrom | apply Z.eqb_neq in Hfrom]; cbn;
    intuition (try discriminate; try congruence).
Qed.

(** C2: with a renderer that defines the three hooks and states whose
    range is set when they are active, [update] returns, and among its
    calls [onStart] occurs iff the suggestion became active or moved,
    [onUpdate] iff the query changed without a start, a stop or a move,
    [onExit] iff the suggestion became inactive or moved; no hook is
    called twice, and nothing is called when none of the three
    applies. *)
Theorem hooks_follow_state_change renderer document prev next :
  (forall h, defines renderer h = true) ->
  (active prev = true -> is_Some (range prev)) ->
  (active next = true -> is_Some (range next)) ->
  exists calls,
    update Item items renderer document prev next = Some calls
    /\ (In onStart (hooks_called calls) <->
          became_active prev next \/ has_moved prev next)
    /\ (In onUpdate (hooks_called calls) <->
          query_changed prev next /\ ~ became_active prev next
          /\ ~ became_inactive prev next /\ ~ has_moved prev next)
    /\ (In onExit (hooks_called calls) <->
          became_inactive prev next \/ has_moved prev next)
    /\ NoDup (hooks_called calls)
    /\ (~ (became_active prev next \/ has_moved prev next) ->
        ~ (query_changed prev next /\ ~ became_active prev next
           /\ ~ became_inactive prev next /\ ~ has_moved prev next) ->
        ~ (became_inactive prev next \/ has_moved prev next) ->
        calls = []).
Proof.
  intros Hdef Hprev Hnext.
  pose proof (update_hooks renderer document prev next Hdef) as Hplan.
  destruct (moved_defined prev next Hprev Hnext) as (m & Hm & Hmoved).
  unfold hook_plan in Hplan. rewrite Hm in Hplan.
  destruct (update Item items renderer document prev next) as [calls|];
    [|discriminate].
  exists calls. split; [reflexivity|].
  cbn [fmap option_fmap option_map] in Hplan. injection Hplan as Hplan.
  assert (Hnil : hooks_called calls = [] -> calls = []).
  { unfold hooks_called. destruct calls; [reflexivity| discriminate]. }
  revert Hnil. rewrite Hplan. clear Hplan Hm.
  unfold became_active, became_inactive, query_changed.
  destruct (bool_decide (query prev = query next)) eqn:Hq;
    [apply bool_decide_eq_true in Hq | apply bool_decide_eq_false in Hq];
    destruct (active prev), (active next), m; cbn; intros Hnil;
    repeat split;
    try solve [intuition (try discriminate; try congruence)];
    try compute_done.
Qed.
End ViewProperties.

Lemma hooks_follow_state_change_witness :
  exists calls,
    update nat (fun _ => []) full_renderer [decoration_span]
      after_ab after_abc = Some calls
    /\ In onUpdate (hooks_called calls)
    /\ ~ In onStart (hooks_called calls)
    /\ ~ In onExit (hooks_called calls).
Proof.
  destruct (hooks_follow_state_change (fun _ => @nil nat) full_renderer
              [decoration_span] after_ab after_abc)
    as (calls & Hupd & Hstart & Hupdate & Hexit & _).
  - intros h. destruct h; reflexivity.
  - intros _. eexists. reflexivity.
  - intros _. eexists. reflexivity.
  - exists calls. split; [exact Hupd|]. split; [|split].
    + apply Hupdate. unfold query_changed, became_active, became_inactive,
        has_moved. cbn. intuition (try discriminate; try congruence).
    + intros Hin. apply Hstart in Hin.
      unfold became_active, has_moved in Hin. cbn in Hin.
      intuition (try discriminate; try congruence).
    + intros Hin. apply Hexit in Hin.
      unfold became_inactive, has_moved in Hin. cbn in Hin.
      intuition (try discriminate; try congruence).
Defined.

(** *** The decoration node handed to the hooks *)

(** The state object has no property [decorationId]; the selector is
    built from [undefined]. *)
Lemma decorationId_reads_undefined (st : SuggestionPluginState) :
  template_string (get_property st (js "decorationId")) = js "undefined".
Proof. reflexivity. Qed.

Lemma querySelector_attr_None document name v :
  (forall e, In e document -> getAttribute name e <> Some v) ->
  querySelector_attr document name v = None.
Proof.
  unfold querySelector_attr. induction document as [|e rest IH];
    intros Hno; [reflexivity|]. cbn [find].
  rewrite bool_decide_eq_false_2 by (apply Hno; now left).
  apply IH. intros e' He'. apply Hno. now right.
Qed.

(** Unless some element carries the literal ID "undefined", every hook
    call gets a [null] decoration node and a [null] [clientRect]. *)
Lemma update_decorationNode_null {Item : Type}
    (items : option jsstring -> list Item) renderer document prev next
    calls :
  (forall e, In e document ->
     getAttribute (js "data-decoration-id") e <> Some (js "undefined")) ->
  update Item items renderer document prev next = Some calls ->
  forall h props, In (h, props) calls ->
    decorationNode Item props = None /\ clientRect Item props = None.
Proof.
  intros Hno. unfold update.
  destruct (moved prev next) as [m|]; [|discriminate].
  cbv zeta.
  match goal with
  | |- context [if ?b then Some [] else _] => destruct b
  end.
  { intros [= <-] h props []. }
  match goal with
  | |- context [get_property ?s _] => generalize s; intros st
  end.
  rewrite decorationId_reads_undefined.
  rewrite (querySelector_attr_None _ _ _ Hno).
  intros [= <-] h props Hin.
  unfold call_hook in Hin.
  repeat match type of Hin with
         | context [if ?b then _ else _] => destruct b
         end;
    cbn in Hin; intuition (try congruence);
    match goal with H : (_, _) = (_, _) |- _ => injection H as _ <- end;
    reflexivity.
Qed.

(** C3 fails on the code: when the suggestion for "ab" starts, the
    decoration drawn for it carries the state's ID "id_7" and is in the
    document, yet [onStart] receives neither a decoration node nor a
    [clientRect], because [update] reads [decorationId] where the state
    holds [decorationID]. *)
Theorem onStart_without_decoration_node :
  decorations (js "span") (js "suggestion") after_ab
  = Some (DecorationSet_create
            [Decoration_inline 1 3
               {| nodeName := js "span"; class := js "suggestion";
                  data_decoration_id := Some (js "id_7") |}])
  /\ querySelector_attr [decoration_span] (js "data-decoration-id")
       (js "id_7") = Some decoration_span
  /\ update nat (fun _ => []) full_renderer [decoration_span] typed after_ab
     = Some [(onStart,
              {| props_range := Some {| from := 1; to := 3 |};
                 props_query := Some (js "ab");
                 props_text := Some (js "ab");
                 props_items := [];
                 props_command_range := Some {| from := 1; to := 3 |};
                 decorationNode := None;
                 clientRect := None |})].
Proof. repeat split; reflexivity. Qed.

(** *** The [Editor] component *)

Import EditorComponent.

(** C9: after [handleDeleteRoute(id)] the selection is the ID of the
    first route of the list as it was before the deletion (or
    [undefined] for an empty list) when the deleted route was the
    selected one, and [undefined] in every other case, whatever the
    store's [deleteRoute] does. *)
Theorem handleDeleteRoute_selection {Route : Type} (id : Route -> jsstring)
    (deleteRoute : jsstring -> list Route -> list Route)
    (deleted : jsstring) (st : EditorState Route) :
  (selectedRouteID Route st = Some deleted ->
     selectedRouteID Route (handleDeleteRoute Route id deleteRoute deleted st)
     = id <$> head (store_routes Route st))
  /\ (selectedRouteID Route st <> Some deleted ->
      selectedRouteID Route (handleDeleteRoute Route id deleteRoute deleted st)
      = None)
  /\ store_routes Route (handleDeleteRoute Route id deleteRoute deleted st)
     = deleteRoute deleted (store_routes Route st).
Proof.
  unfold handleDeleteRoute, selection_after_delete. cbn. repeat split.
  - intros Hsel. rewrite bool_decide_eq_true_2 by exact Hsel.
    destruct (store_routes Route st); reflexivity.
  - intros Hsel. rewrite bool_decide_eq_false_2 by exact Hsel. reflexivity.
Qed.

Example delete_unselected_route_clears_selection :
  selectedRouteID _
    (handleDeleteRoute jsstring (fun r => r)
       (fun d => filter (fun r => r <> d)) (js "b")
       {| store_routes := [js "a"; js "b"];
          selectedRouteID := Some (js "a") |})
  = None.
Proof. reflexivity. Qed.

Example delete_selected_route_selects_first :
  selectedRouteID _
    (handleDeleteRoute jsstring (fun r => r)
       (fun d => filter (fun r => r <> d)) (js "b")
       {| store_routes := [js "a"; js "b"];
          selectedRouteID := Some (js "b") |})
  = Some (js "a").
Proof. reflexivity. Qed.

Lemma json_number_exact (x : float) :
  json_exact x = true -> json_number x = Some x.
Proof.
  unfold json_exact, json_number, is_finite.
  destruct (is_nan x || is_infinity x); [discriminate|].
  destruct (is_zero x && get_sign x); [discriminate| reflexivity].
Qed.

Lemma json_array_exact (xs : list float) :
  forallb json_exact xs = true -> json_array xs = Some <$> xs.
Proof.
  unfold json_array. induction xs as [|x xs IH]; [reflexivity|].
  cbn [forallb]. intros Hall. apply andb_true_iff in Hall as [Hx Hxs].
  cbn [fmap list_fmap]. rewrite (json_number_exact x Hx).
  f_equal. apply IH. exact Hxs.
Qed.

(** C10: the sizes given to the splitter are those read from the item
    stored under 'project-board-splitter-sizes', or [50, 50] when
    nothing is stored; a finished resize writes the new sizes under
    that key as JSON and leaves the other keys alone, and the sizes
    read back from then on are the written ones: the new sizes
    themselves whenever they are finite numbers other than negative
    zero (JSON has [null] for [NaN] and the infinities and [0] for
    negative zero). *)
Theorem splitter_sizes_persisted (b : Browser) (i : float)
    (newSizes : list float) :
  initialSizes (render_Splitter b)
  = default [Some 50%float; Some 50%float]
      (localStorage b !! js "project-board-splitter-sizes")
  /\ localStorage (onResizeFinished (render_Splitter b) i newSizes b)
       !! js "project-board-splitter-sizes" = Some (json_array newSizes)
  /\ (forall key, key <> js "project-board-splitter-sizes" ->
        localStorage (onResizeFinished (render_Splitter b) i newSizes b)
          !! key = localStorage b !! key)
  /\ initialSizes
       (render_Splitter (onResizeFinished (render_Splitter b) i newSizes b))
     = json_array newSizes
  /\ (forallb json_exact newSizes = true ->
      json_array newSizes = Some <$> newSizes).
Proof.
  unfold render_Splitter, useLocalStorage, handleResize. cbn -[js].
  split; [reflexivity|]. split; [apply lookup_insert_eq|]. split; [|split].
  - intros key Hkey. apply lookup_insert_ne. congruence.
  - rewrite lookup_insert_eq. reflexivity.
  - apply json_array_exact.
Qed.

Example first_render_uses_default_sizes :
  initialSizes (render_Splitter
                  {| localStorage := ∅; ref_pointerEvents := None |})
  = [Some 50%float; Some 50%float].
Proof. reflexivity. Qed.

Example resize_stores_and_reads_back :
  initialSizes
    (render_Splitter
       (onResizeFinished
          (render_Splitter {| localStorage := ∅; ref_pointerEvents := None |})
          1%float [37.5%float; 62.5%float]
          {| localStorage := ∅; ref_pointerEvents := None |}))
  = [Some 37.5%float; Some 62.5%float].
Proof. vm_compute. reflexivity. Qed.

Example json_round_trip_of_special_numbers :
  json_array [neg_zero; nan; infinity; neg_infinity; 0%float; 100%float]
  = [Some 0%float; None; None; None; Some 0%float; Some 100%float].
Proof. vm_compute. reflexivity. Qed.

(** ** Further properties of the plugin *)

(** *** The regular expression, both ways *)

Lemma lastWord_at_whitespace (q w : jsstring) (c : N) :
  is_whitespace c = true -> lastWord_at (q ++ c :: w) = false.
Proof.
  intros Hc. unfold lastWord_at. apply andb_false_iff. right.
  rewrite forallb_app. cbn [forallb]. unfold non_space at 2. rewrite Hc.
  cbn. apply andb_false_r.
Qed.

Lemma lastWord_exec_skip (q w : jsstring) (c : N) :
  is_whitespace c = true ->
  lastWord_exec (q ++ c :: w) = lastWord_exec w.
Proof.
  intros Hc. induction q as [|x q IH].
  - pose proof (lastWord_at_whitespace [] w c Hc) as Hat.
    cbn [app] in Hat |- *. cbn [lastWord_exec]. rewrite Hat. reflexivity.
  - pose proof (lastWord_at_whitespace (x :: q) w c Hc) as Hat.
    cbn [app] in Hat |- *. cbn [lastWord_exec]. rewrite Hat. exact IH.
Qed.

Lemma lastWord_exec_word (w : jsstring) :
  w <> [] -> forallb non_space w = true -> lastWord_exec w = Some w.
Proof.
  intros Hne Hall. destruct w as [|c w]; [congruence|].
  cbn [lastWord_exec]. unfold lastWord_at. rewrite Hall. reflexivity.
Qed.

(** X1: [lastWord.exec(text)] returns exactly the longest suffix of the
    text that is non-empty and free of white space, and [null] exactly
    when the text is empty or ends in a white-space code unit. *)
Theorem lastWord_exec_longest_suffix (txt w : jsstring) :
  (lastWord_exec txt = Some w <->
     exists pre, txt = pre ++ w /\ w <> [] /\ forallb non_space w = true
       /\ (pre = [] \/ exists pre' c,
             pre = pre' ++ [c] /\ is_whitespace c = true))
  /\ (lastWord_exec txt = None <->
        txt = [] \/ exists pre c,
          txt = pre ++ [c] /\ is_whitespace c = true).
Proof.
  split; split.
  - apply lastWord_exec_Some.
  - intros (pre & -> & Hne & Hall & [-> | (pre' & c & -> & Hc)]).
    + apply lastWord_exec_word; assumption.
    + rewrite <- app_assoc. cbn [app].
      rewrite (lastWord_exec_skip pre' w c Hc).
      apply lastWord_exec_word; assumption.
  - apply lastWord_exec_None.
  - intros [-> | (pre & c & -> & Hc)]; [reflexivity|].
    rewrite (lastWord_exec_skip pre [] c Hc). reflexivity.
Qed.

(** *** When [apply] opens, keeps and closes the suggestion *)

Lemma apply_untyped allow rnd tr prev :
  wasCharTyped prev = false -> apply allow rnd tr prev = init.
Proof.
  intros Hty. unfold apply. apply clear_if_inactive_false.
  unfold apply_body. rewrite Hty. reflexivity.
Qed.

Lemma apply_empty_text allow rnd tr prev :
  wasCharTyped prev = true ->
  selection_from tr = selection_to tr ->
  text_before_cursor tr = [] ->
  active prev = true ->
  left_range prev (selection_from tr) = false ->
  apply allow rnd tr prev = prev.
Proof.
  intros Hty Hsel Htxt Hact Hleft. unfold apply, apply_body.
  rewrite Hty, Hsel, Z.eqb_refl. rewrite Hsel in Hleft.
  rewrite Hleft, Htxt. cbn [negb truthy].
  apply clear_if_inactive_true. exact Hact.
Qed.

(** X2: [apply] returns an active state exactly when a character was
    typed, the selection is an empty cursor, and either the text before
    the cursor ends in a word whose range [allow] accepts, or that text
    is empty while the previous state is active and the cursor has not
    left its range. *)
Theorem apply_active_iff allow rnd tr prev :
  active (apply allow rnd tr prev) = true <->
  wasCharTyped prev = true
  /\ selection_from tr = selection_to tr
  /\ ((exists w, word_before_cursor tr = Some w
         /\ allow (match_range tr (text_before_cursor tr) w) = true)
      \/ (text_before_cursor tr = [] /\ active prev = true
          /\ left_range prev (selection_from tr) = false)).
Proof.
  split.
  - intros Hact. destruct (apply_active_typed _ _ _ _ Hact) as [Hty Hsel].
    split; [exact Hty|]. split; [exact Hsel|].
    destruct (word_before_cursor tr) as [w|] eqn:Hw.
    + left. exists w. split; [reflexivity|].
      rewrite (apply_on_word allow rnd tr prev w Hty Hsel Hw) in Hact.
      destruct (allow _); [reflexivity| discriminate].
    + right.
      destruct (apply_no_word _ _ _ _ Hw Hact) as (? & _ & _ & ? & ? & _).
      auto.
  - intros (Hty & Hsel & [(w & Hw & Hallow) | (Htxt & Hact & Hleft)]).
    + rewrite (apply_on_word allow rnd tr prev w Hty Hsel Hw), Hallow.
      reflexivity.
    + rewrite (apply_empty_text allow rnd tr prev Hty Hsel Htxt Hact Hleft).
      exact Hact.
Qed.

(** X3: a white-space code unit right before the cursor closes the
    suggestion: [apply] returns the emptied initial state, whatever the
    previous state and the [allow] option. *)
Theorem apply_whitespace_closes allow rnd tr prev pre c :
  text_before_cursor tr = pre ++ [c] ->
  is_whitespace c = true ->
  apply allow rnd tr prev = init.
Proof.
  intros Htxt Hc. apply apply_inactive_is_init.
  destruct (active (apply allow rnd tr prev)) eqn:Hact; [|reflexivity].
  assert (Hw : word_before_cursor tr = None).
  { unfold word_before_cursor. rewrite Htxt.
    rewrite (lastWord_exec_skip pre [] c Hc). reflexivity. }
  destruct (apply_no_word _ _ _ _ Hw Hact) as (Hnil & _).
  rewrite Htxt in Hnil. destruct pre; discriminate.
Qed.

Lemma apply_whitespace_closes_witness :
  apply allow_all 9 (cursor_at (js "ab ") 4) after_ab = init.
Proof.
  apply (apply_whitespace_closes allow_all 9 (cursor_at (js "ab ") 4)
           after_ab (js "ab") 32%N); reflexivity.
Defined.

(** X4: typing opens the suggestion from any state: after
    [handleTextInput] saw a non-empty text, an [apply] step with an
    empty cursor behind a word that [allow] accepts returns an active
    state whose query and text are that word and whose range is the one
    computed for it. *)
Theorem typing_opens_suggestion allow rnd tr st input w :
  input <> [] ->
  selection_from tr = selection_to tr ->
  word_before_cursor tr = Some w ->
  allow (match_range tr (text_before_cursor tr) w) = true ->
  exists st',
    handleTextInput (Some st) input = (Some st', Some false)
    /\ active (apply allow rnd tr st') = true
    /\ query (apply allow rnd tr st') = Some w
    /\ text (apply allow rnd tr st') = Some w
    /\ range (apply allow rnd tr st')
       = Some (match_range tr (text_before_cursor tr) w).
Proof.
  intros Hin Hsel Hw Hallow. unfold handleTextInput.
  destruct input as [|c input]; [congruence|]. cbn [truthy].
  eexists. split; [reflexivity|].
  match goal with
  | |- context [apply allow rnd tr ?s] =>
      rewrite (apply_on_word allow rnd tr s w eq_refl Hsel Hw)
  end.
  rewrite Hallow. repeat split.
Qed.

Lemma typing_opens_suggestion_witness :
  exists st',
    handleTextInput (Some init) (js "a") = (Some st', Some false)
    /\ query (apply allow_all 7 (cursor_at (js "a") 2) st')
       = Some (js "a").
Proof.
  destruct (typing_opens_suggestion allow_all 7 (cursor_at (js "a") 2)
              init (js "a") (js "a"))
    as (st' & Hin & _ & Hq & _); try reflexivity; [discriminate|].
  exists st'. split; [exact Hin | exact Hq].
Defined.

Lemma apply_all_init steps : apply_all steps init = init.
Proof.
  unfold apply_all. induction steps as [|[[allow rnd] tr] steps IH];
    [reflexivity|].
  cbn [fold_left]. rewrite apply_untyped by reflexivity. exact IH.
Qed.

(** X5: once [apply] has returned an inactive state, every further run
    of [apply] steps stays at the emptied initial state: the suggestion
    cannot reopen before [handleTextInput] sees a new character. *)
Theorem closed_stays_closed allow rnd tr prev steps :
  active (apply allow rnd tr prev) = false ->
  apply_all steps (apply allow rnd tr prev) = init.
Proof.
  intros Hact. rewrite (apply_inactive_is_init _ _ _ _ Hact).
  apply apply_all_init.
Qed.

Lemma closed_stays_closed_witness :
  apply_all [(allow_all, 3%N, cursor_at (js "ab cd") 6);
             (allow_all, 4%N, cursor_at (js "ab cd") 3)]
    (apply allow_all 9 (selection_at (js "ab cd") 1 3) after_ab) = init.
Proof.
  apply (closed_stays_closed allow_all 9 (selection_at (js "ab cd") 1 3)
           after_ab). reflexivity.
Defined.

(** *** The shape of the states of a running plugin *)

Lemma fresh_decorationID_truthy (n : N) :
  truthy_opt (Some (fresh_decorationID n)) = true.
Proof. reflexivity. Qed.

Lemma match_range_length tr txt (m : jsstring) :
  to (match_range tr txt m) - from (match_range tr txt m) = jslength m.
Proof. unfold match_range. cbn [from to]. lia. Qed.

Lemma apply_state_shape allow rnd tr prev :
  state_shape prev -> state_shape (apply allow rnd tr prev).
Proof.
  intros Hprev.
  destruct (active (apply allow rnd tr prev)) eqn:Hact.
  2:{ rewrite (apply_inactive_is_init _ _ _ _ Hact). repeat split. }
  destruct (apply_active_typed _ _ _ _ Hact) as [Hty Hsel].
  destruct (word_before_cursor tr) as [w|] eqn:Hw.
  - rewrite (apply_on_word allow rnd tr prev w Hty Hsel Hw) in Hact |- *.
    destruct (allow _); [|discriminate].
    destruct (lastWord_exec_Some _ _ Hw) as (pre & _ & Hne & Hall & _).
    unfold state_shape in Hprev |- *. cbn [active].
    assert (Hid : exists n,
               (if truthy_opt (decorationID prev) then decorationID prev
                else Some (fresh_decorationID rnd))
               = Some (fresh_decorationID n)).
    { destruct (active prev).
      - destruct Hprev as (r & w' & n & _ & _ & _ & Hd & _).
        exists n. rewrite Hd, fresh_decorationID_truthy. reflexivity.
      - destruct Hprev as (_ & Hd & _). exists rnd. rewrite Hd. reflexivity. }
    destruct Hid as [n Hid].
    exists (match_range tr (text_before_cursor tr) w), w, n.
    unfold suggests. cbn [range query text decorationID wasCharTyped].
    rewrite Hid. repeat split; auto. apply match_range_length.
  - destruct (apply_no_word _ _ _ _ Hw Hact) as (_ & _ & _ & _ & _ & ->).
    exact Hprev.
Qed.

Lemma reachable_state_shape (s : SuggestionPluginState) :
  reachable s -> state_shape s.
Proof.
  induction 1 as [| allow rnd tr prev _ IH | prev input st _ IH Hin].
  - repeat split.
  - apply apply_state_shape, IH.
  - cbn in Hin. injection Hin as <-.
    destruct (truthy input); [|exact IH].
    unfold state_shape in IH |- *. cbn [active].
    destruct (active prev); [|exact IH].
    destruct IH as (r & w & n & Hr & Hq & Ht & Hd & _ & Hne & Hall & Hlen).
    exists r, w, n. unfold suggests.
    cbn [range query text decorationID wasCharTyped].
    repeat split; assumption.
Qed.

Lemma reachable_active_suggests (s : SuggestionPluginState) :
  reachable s -> active s = true ->
  exists r w n, suggests s r w n /\ from r < to r.
Proof.
  intros Hreach Hact. pose proof (reachable_state_shape s Hreach) as Hshape.
  unfold state_shape in Hshape. rewrite Hact in Hshape.
  destruct Hshape as (r & w & n & Hsug). exists r, w, n.
  split; [exact Hsug|].
  destruct Hsug as (_ & _ & _ & _ & _ & Hne & _ & Hlen).
  unfold jslength in Hlen. destruct w; [congruence|].
  cbn [length] in Hlen. lia.
Qed.

(** X6: in a running plugin (states obtained from [init] by [apply]
    and [handleTextInput]), an active state always carries a word free
    of white space that is both query and text, a range exactly as long
    as that word, a decoration ID of the form "id_<number>" and a set
    [wasCharTyped]; an inactive state carries no range, ID, query or
    text. *)
Theorem reachable_states_shape (s : SuggestionPluginState) :
  reachable s ->
  (active s = true ->
     exists r w (n : N),
       range s = Some r /\ query s = Some w /\ text s = Some w
       /\ decorationID s = Some (js "id_" ++ js (pretty n))
       /\ wasCharTyped s = true
       /\ w <> [] /\ forallb non_space w = true
       /\ to r - from r = jslength w /\ from r < to r)
  /\ (active s = false ->
      range s = None /\ decorationID s = None /\ query s = None
      /\ text s = None).
Proof.
  intros Hreach. split; intros Hact.
  - destruct (reachable_active_suggests s Hreach Hact)
      as (r & w & n & (Hr & Hq & Ht & Hd & Hty & Hne & Hall & Hlen) & Hlt).
    exists r, w, n. repeat split; auto.
  - pose proof (reachable_state_shape s Hreach) as Hshape.
    unfold state_shape in Hshape. rewrite Hact in Hshape. exact Hshape.
Qed.

Lemma reachable_states_shape_witness :
  exists r w (n : N),
    range after_ab = Some r /\ query after_ab = Some w
    /\ decorationID after_ab = Some (js "id_" ++ js (pretty n))
    /\ to r - from r = jslength w.
Proof.
  destruct (reachable_states_shape after_ab reachable_after_ab)
    as (Hon & _).
  destruct (Hon eq_refl) as (r & w & n & Hr & Hq & _ & Hd & _ & _ & _
                             & Hlen & _).
  exists r, w, n. auto.
Defined.

(** X7: in a running plugin the [decorations] prop is [null] exactly
    when the suggestion is inactive; when it is active the single
    inline decoration spans a non-empty range and carries an ID of the
    form "id_<number>". *)
Theorem decorations_of_reachable tag cls (s : SuggestionPluginState) :
  reachable s ->
  (decorations tag cls s = None <-> active s = false)
  /\ (active s = true ->
      exists r (n : N),
        from r < to r
        /\ decorations tag cls s =
           Some (DecorationSet_create
                   [Decoration_inline (from r) (to r)
                      {| nodeName := tag; class := cls;
                         data_decoration_id :=
                           Some (js "id_" ++ js (pretty n)) |}])).
Proof.
  intros Hreach. unfold decorations. destruct (active s) eqn:Hact.
  - destruct (reachable_active_suggests s Hreach Hact)
      as (r & w & n & (Hr & _ & _ & Hd & _) & Hlt).
    rewrite Hr, Hd. cbn. split; [split; discriminate|].
    intros _. exists r, n. split; [exact Hlt | reflexivity].
  - pose proof (reachable_state_shape s Hreach) as Hshape.
    unfold state_shape in Hshape. rewrite Hact in Hshape.
    destruct Hshape as (Hr & _). rewrite Hr.
    split; [split; reflexivity | discriminate].
Qed.

Lemma decorations_of_reachable_witness :
  decorations (js "span") (js "suggestion") after_ab <> None.
Proof.
  destruct (decorations_of_reachable (js "span") (js "suggestion")
              after_ab reachable_after_ab) as (Hnone & _).
  intros H. apply Hnone in H. discriminate.
Defined.

(** *** [handleKeyDown] *)

(** X8: in a running plugin [handleKeyDown] never returns [undefined];
    it calls the renderer's [onKeyDown] at most once, and does so
    exactly when the suggestion is active and the hook is defined,
    passing the event and the state's range; it returns [true] exactly
    when that call returned [true]. *)
Theorem handleKeyDown_offers_key {KeyboardEvent : Type}
    (onKeyDown : option (SuggestionKeyDownProps KeyboardEvent -> bool))
    (st : SuggestionPluginState) (event : KeyboardEvent) :
  reachable st ->
  exists result calls,
    handleKeyDown KeyboardEvent onKeyDown (Some st) event
    = (Some result, calls)
    /\ (length calls <= 1)%nat
    /\ (calls <> [] <-> active st = true /\ is_Some onKeyDown)
    /\ (forall p, In p calls ->
          key_event KeyboardEvent p = event
          /\ range st = Some (key_range KeyboardEvent p))
    /\ (result = true <->
          exists hook p, onKeyDown = Some hook /\ calls = [p]
                         /\ hook p = true).
Proof.
  intros Hreach. unfold handleKeyDown.
  destruct (active st) eqn:Hact; cbn [negb].
  - destruct (reachable_range_defined st Hreach Hact) as [r Hr].
    rewrite Hr. destruct onKeyDown as [hook|].
    + eexists _, _. split; [reflexivity|]. cbn [length].
      split; [lia|]. split; [split; [eauto | discriminate]|].
      split.
      * intros p [<- | []]. split; reflexivity.
      * rewrite orb_false_r. split.
        -- intros Hres. eexists hook, _. repeat split. exact Hres.
        -- intros (hook' & p & [= <-] & [= <-] & Hres). exact Hres.
    + eexists _, _. split; [reflexivity|]. cbn [length].
      split; [lia|]. split.
      * split; [congruence|]. intros [_ [h Hh]]. discriminate.
      * split; [intros p []|].
        split; [discriminate|]. intros (h & p & Hh & _). discriminate.
  - eexists _, _. split; [reflexivity|]. cbn [length].
    split; [lia|]. split.
    + split; [congruence|]. intros [Hf _]. discriminate.
    + split; [intros p []|].
      split; [discriminate|]. intros (h & p & _ & Hc & _). discriminate.
Qed.

Lemma handleKeyDown_offers_key_witness :
  exists result calls,
    handleKeyDown nat (Some (fun p => Nat.eqb (key_event nat p) 13))
      (Some after_ab) 13%nat = (Some result, calls)
    /\ calls <> []
    /\ forall p, In p calls ->
         range after_ab = Some (key_range nat p).
Proof.
  destruct (handleKeyDown_offers_key
              (Some (fun p => Nat.eqb (key_event nat p) 13))
              after_ab 13%nat reachable_after_ab)
    as (result & calls & Heq & _ & Hcalled & Hprops & _).
  exists result, calls. split; [exact Heq|]. split.
  - apply Hcalled. split; [reflexivity | eexists; reflexivity].
  - intros p Hin. apply (Hprops p Hin).
Defined.

(** *** More on the view's [update] *)

Section UpdateProperties.
Context {Item : Type}.
Variable items : option jsstring -> list Item.

Lemma update_hooks_filtered renderer document prev next :
  hooks_called <$> update Item items renderer document prev next
  = List.filter (defines renderer) <$> hook_plan prev next.
Proof.
  unfold update, hook_plan.
  destruct (moved prev next) as [m|]; [|reflexivity].
  destruct (active prev), (active next), m,
    (bool_decide (query prev = query next));
    cbn -[js querySelector_attr template_string get_property call_hook
          defines];
    unfold call_hook;
    repeat match goal with
           | |- context [defines renderer ?h] => destruct (defines renderer h)
           end;
    reflexivity.
Qed.

Lemma hook_plan_in_plans prev next plan :
  hook_plan prev next = Some plan -> In plan hook_plans.
Proof.
  unfold hook_plan, hook_plans.
  destruct (moved prev next) as [m|]; [|discriminate].
  destruct (active prev), (active next), m,
    (bool_decide (query prev = query next));
    cbn; intros [= <-]; tauto.
Qed.

(** X9: between two states of a running plugin [update] never throws;
    the hooks it calls are, in this order, those of one of the plans
    none, [onExit], [onUpdate], [onStart] or [onExit] then [onStart],
    restricted to the hooks the renderer defines.  So an undefined hook
    is never called, [onUpdate] never comes with another hook, and
    [onExit] always precedes [onStart]. *)
Theorem update_total_and_ordered renderer document prev next :
  reachable prev -> reachable next ->
  exists calls plan,
    update Item items renderer document prev next = Some calls
    /\ In plan [[]; [onExit]; [onUpdate]; [onStart]; [onExit; onStart]]
    /\ hooks_called calls = List.filter (defines renderer) plan
    /\ (forall h, In h (hooks_called calls) -> defines renderer h = true).
Proof.
  intros Hprev Hnext.
  pose proof (update_hooks_filtered renderer document prev next) as Hf.
  destruct (moved_defined prev next
              (reachable_range_defined prev Hprev)
              (reachable_range_defined next Hnext)) as (m & Hm & _).
  destruct (hook_plan prev next) as [plan|] eqn:Hplan.
  2:{ unfold hook_plan in Hplan. rewrite Hm in Hplan. discriminate. }
  destruct (update Item items renderer document prev next) as [calls|];
    [|discriminate].
  cbn in Hf. injection Hf as Hf.
  exists calls, plan. split; [reflexivity|].
  split; [exact (hook_plan_in_plans prev next plan Hplan)|].
  split; [exact Hf|].
  intros h Hin. rewrite Hf in Hin. apply filter_In in Hin. apply Hin.
Qed.

(** X10: the props of one [update] come from one state: when the
    suggestion stopped, [onExit] gets the range, query and text of the
    previous state and an empty item list; in every other case each
    hook called gets the range, query and text of the new state and
    the items found for the new query. *)
Theorem update_props_source renderer document prev next :
  (active prev = true -> is_Some (range prev)) ->
  (active next = true -> is_Some (range next)) ->
  exists calls,
    update Item items renderer document prev next = Some calls
    /\ forall h p, In (h, p) calls ->
         let stopped := active prev && negb (active next) in
         let state := if stopped then prev else next in
         props_range Item p = range state
         /\ props_query Item p = query state
         /\ props_text Item p = text state
         /\ props_command_range Item p = range state
         /\ props_items Item p
            = (if stopped then [] else items (query next))
         /\ (stopped = true -> h = onExit).
Proof.
  intros Hprev Hnext.
  destruct (moved_defined prev next Hprev Hnext) as (m & Hm & Hmoved).
  unfold update. rewrite Hm.
  assert (Hm' : m = true -> active prev = true /\ active next = true).
  { intros E. apply Hmoved in E. destruct E as (? & ? & _). auto. }
  destruct (active prev) eqn:Hap, (active next) eqn:Han, m;
    try (destruct (Hm' eq_refl); discriminate);
    destruct (bool_decide (query prev = query next));
    cbn -[js querySelector_attr template_string get_property call_hook];
    eexists; (split; [reflexivity|]);
    intros h p Hin; unfold call_hook in Hin;
    repeat match type of Hin with
           | context [if ?b then _ else _] => destruct b
           end;
    cbn in Hin;
    repeat match type of Hin with
           | _ \/ _ => destruct Hin as [Hin | Hin]
           | False => destruct Hin
           end;
    injection Hin as <- <-; repeat split; discriminate.
Qed.
End UpdateProperties.

Lemma update_total_and_ordered_witness :
  exists calls,
    update nat (fun _ => []) full_renderer [decoration_span]
      after_ab after_abc = Some calls
    /\ forall h, In h (hooks_called calls) ->
         defines full_renderer h = true.
Proof.
  assert (Hnext : reachable after_abc).
  { change after_abc
      with (apply allow_all 9 (cursor_at (js "abc") 4) after_ab).
    apply reachable_apply, reachable_after_ab. }
  destruct (update_total_and_ordered (fun _ => @nil nat) full_renderer
              [decoration_span] after_ab after_abc reachable_after_ab Hnext)
    as (calls & plan & Hupd & _ & _ & Hdef).
  exists calls. split; [exact Hupd | exact Hdef].
Defined.

Lemma update_props_source_witness :
  exists calls,
    update nat (fun _ => [1%nat]) full_renderer [] after_ab init
      = Some calls
    /\ forall h p, In (h, p) calls ->
         props_query nat p = Some (js "ab") /\ props_items nat p = [].
Proof.
  destruct (update_props_source (fun _ => [1%nat]) full_renderer []
              after_ab init) as (calls & Hupd & Hprops).
  - intros _. eexists. reflexivity.
  - discriminate.
  - exists calls. split; [exact Hupd|]. intros h p Hin.
    destruct (Hprops h p Hin) as (_ & Hq & _ & _ & Hi & _).
    split; [exact Hq | exact Hi].
Defined.

(** ** Further properties of the [Editor] component *)

Import EditorRuns.

Section RouteSelection.
Context {Route : Type}.
Variable id : Route -> jsstring.

Lemma selectedRoute_Some routes sel (r : Route) :
  selectedRoute Route id routes sel = Some r ->
  In r routes /\ sel = Some (id r).
Proof.
  unfold selectedRoute. intros Hfind. apply find_some in Hfind as [Hin Hb].
  apply bool_decide_eq_true in Hb. auto.
Qed.

Lemma selectedRoute_first (r0 : Route) rest :
  selectedRoute Route id (r0 :: rest) (Some (id r0)) = Some r0.
Proof.
  unfold selectedRoute. cbn [find].
  rewrite bool_decide_eq_true_2 by reflexivity. reflexivity.
Qed.

Lemma selectedRoute_undefined routes :
  selectedRoute Route id routes None = None.
Proof.
  unfold selectedRoute. induction routes as [|r rest IH]; [reflexivity|].
  cbn [find]. rewrite bool_decide_eq_false_2 by discriminate. exact IH.
Qed.

Lemma selectDefaultRoute_nil sel :
  selectDefaultRoute Route id [] sel = sel.
Proof. reflexivity. Qed.

Lemma selectDefaultRoute_cons (r0 : Route) rest sel :
  selectDefaultRoute Route id (r0 :: rest) sel
  = if truthy_opt (id <$> selectedRoute Route id (r0 :: rest) sel)
    then sel else Some (id r0).
Proof.
  unfold selectDefaultRoute.
  replace (Z.of_nat (length (r0 :: rest)) =? 0) with false
    by (symmetry; apply Z.eqb_neq; cbn [length]; lia).
  rewrite orb_false_r. reflexivity.
Qed.

Lemma selectDefaultRoute_valid (routes : list Route) sel :
  routes <> [] ->
  exists r, In r routes
    /\ selectedRoute Route id routes
         (selectDefaultRoute Route id routes sel) = Some r
    /\ selectDefaultRoute Route id routes sel = Some (id r).
Proof.
  destruct routes as [|r0 rest]; [congruence|]. intros _.
  rewrite selectDefaultRoute_cons.
  destruct (selectedRoute Route id (r0 :: rest) sel) as [r|] eqn:Hsel.
  - destruct (selectedRoute_Some _ _ _ Hsel) as [Hin ->].
    cbn [fmap option_fmap option_map truthy_opt].
    destruct (truthy (id r)).
    + exists r. auto.
    + exists r0. rewrite selectedRoute_first. split; [now left | auto].
  - cbn [fmap option_fmap option_map truthy_opt].
    exists r0. rewrite selectedRoute_first. split; [now left | auto].
Qed.

(** X11: the effect [selectDefaultRoute] leaves a selection that names
    a route of the list whenever the list is not empty, leaves the
    selection alone when the list is empty or the selected route has a
    non-empty ID, and is stable: running it again changes nothing. *)
Theorem selectDefaultRoute_selects_existing (routes : list Route)
    (sel : option jsstring) :
  (routes <> [] ->
     exists r, In r routes
       /\ selectedRoute Route id routes
            (selectDefaultRoute Route id routes sel) = Some r
       /\ selectDefaultRoute Route id routes sel = Some (id r))
  /\ (routes = [] -> selectDefaultRoute Route id routes sel = sel)
  /\ (forall r, selectedRoute Route id routes sel = Some r ->
        id r <> [] -> selectDefaultRoute Route id routes sel = sel)
  /\ selectDefaultRoute Route id routes
       (selectDefaultRoute Route id routes sel)
     = selectDefaultRoute Route id routes sel.
Proof.
  split; [apply selectDefaultRoute_valid|]. split; [|split].
  - intros ->. apply selectDefaultRoute_nil.
  - intros r Hsel Hid. destruct routes as [|r0 rest]; [discriminate|].
    rewrite selectDefaultRoute_cons, Hsel.
    cbn [fmap option_fmap option_map truthy_opt].
    destruct (id r); [congruence| reflexivity].
  - destruct routes as [|r0 rest].
    + rewrite !selectDefaultRoute_nil. reflexivity.
    + destruct (selectDefaultRoute_valid (r0 :: rest) sel)
        as (r & _ & Hsel & Heq); [discriminate|].
      rewrite Heq in Hsel |- *.
      rewrite selectDefaultRoute_cons, Hsel.
      cbn [fmap option_fmap option_map truthy_opt].
      destruct (truthy (id r)) eqn:Htr; [reflexivity|].
      rewrite selectDefaultRoute_cons in Heq.
      destruct (selectedRoute Route id (r0 :: rest) sel) as [r'|] eqn:Hs.
      * destruct (selectedRoute_Some _ _ _ Hs) as [_ ->].
        cbn [fmap option_fmap option_map truthy_opt] in Heq.
        destruct (truthy (id r')) eqn:Htr'; [|exact Heq].
        injection Heq as Heq. rewrite Heq in Htr'. congruence.
      * cbn [fmap option_fmap option_map truthy_opt] in Heq. exact Heq.
Qed.

(** X12: on mount the first route is the selected one (none for an
    empty list), and the effect has nothing to change. *)
Theorem initial_selection_is_first_route (routes : list Route) :
  selectedRoute Route id routes (initialSelectedRouteID Route id routes)
  = head routes
  /\ selectDefaultRoute Route id routes
       (initialSelectedRouteID Route id routes)
     = initialSelectedRouteID Route id routes.
Proof.
  destruct routes as [|r0 rest]; [split; reflexivity|].
  assert (Hinit : initialSelectedRouteID Route id (r0 :: rest)
                  = Some (id r0)) by reflexivity.
  rewrite Hinit, selectDefaultRoute_cons, selectedRoute_first.
  split; [reflexivity|].
  cbn [fmap option_fmap option_map truthy_opt].
  destruct (truthy (id r0)); reflexivity.
Qed.

Lemma selectDefaultRoute_of_undefined (routes : list Route) :
  selectDefaultRoute Route id routes None = id <$> head routes.
Proof.
  destruct routes as [|r0 rest]; [apply selectDefaultRoute_nil|].
  rewrite selectDefaultRoute_cons, selectedRoute_undefined. reflexivity.
Qed.

Variable deleteRoute : jsstring -> list Route -> list Route.

(** X13: deleting a route other than the selected one does not keep
    the selection: once the effect has run on the store's new list, the
    first remaining route is selected (none if no route remains),
    whatever route was selected before. *)
Theorem delete_other_route_selects_first (deleted : jsstring)
    (st : EditorState Route) :
  selectedRouteID Route st <> Some deleted ->
  let st' := handleDeleteRoute Route id deleteRoute deleted st in
  selectDefaultRoute Route id (store_routes Route st')
    (selectedRouteID Route st')
  = id <$> head (store_routes Route st').
Proof.
  intros Hsel. cbn zeta. unfold handleDeleteRoute, selection_after_delete.
  cbn [store_routes selectedRouteID].
  rewrite bool_decide_eq_false_2 by exact Hsel.
  apply selectDefaultRoute_of_undefined.
Qed.
End RouteSelection.

Lemma selectDefaultRoute_example :
  selectDefaultRoute jsstring (fun r => r) [js "a"; js "b"] (Some (js "zz"))
  = Some (js "a").
Proof. reflexivity. Qed.

Lemma delete_other_route_selects_first_witness :
  let deleteRoute :=
    fun d => List.filter (fun r : jsstring => negb (bool_decide (r = d))) in
  let st :=
    {| store_routes := [js "a"; js "b"; js "c"];
       selectedRouteID := Some (js "b") |} in
  let st' := handleDeleteRoute jsstring (fun r => r) deleteRoute (js "c") st in
  selectDefaultRoute jsstring (fun r => r) (store_routes jsstring st')
    (selectedRouteID jsstring st')
  = (fun r => r) <$> head (store_routes jsstring st').
Proof.
  intros deleteRoute st.
  apply (delete_other_route_selects_first (fun r : jsstring => r)
           deleteRoute (js "c") st).
  discriminate.
Defined.

Section DeleteThenSelect.
Context {Route : Type}.
Variable id : Route -> jsstring.

Lemma selectedRoute_removed (deleted : jsstring) (routes : list Route) :
  selectedRoute Route id
    (List.filter (fun r => negb (bool_decide (id r = deleted))) routes)
    (Some deleted) = None.
Proof.
  destruct (selectedRoute Route id _ (Some deleted)) as [r|] eqn:Hsel;
    [|reflexivity].
  destruct (selectedRoute_Some id _ _ _ Hsel) as [Hin [= Heq]].
  apply filter_In in Hin as [_ Hkeep].
  rewrite bool_decide_eq_true_2 in Hkeep by (symmetry; exact Heq).
  discriminate.
Qed.

(** X14: when the store's [deleteRoute] removes the routes with the
    given ID and keeps the others in order, then after
    [handleDeleteRoute] and the effect the selection is the first
    remaining route, whichever route was selected or deleted; only
    when no route remains does the effect leave the selection as
    [handleDeleteRoute] set it. *)
Theorem delete_selects_first_remaining
    (deleteRoute : jsstring -> list Route -> list Route)
    (deleted : jsstring) (st : EditorState Route) :
  removes_by_id id deleteRoute deleted (store_routes Route st) ->
  let st' := handleDeleteRoute Route id deleteRoute deleted st in
  (store_routes Route st' <> [] ->
     selectDefaultRoute Route id (store_routes Route st')
       (selectedRouteID Route st')
     = id <$> head (store_routes Route st'))
  /\ (store_routes Route st' = [] ->
      selectDefaultRoute Route id (store_routes Route st')
        (selectedRouteID Route st')
      = selectedRouteID Route st').
Proof.
  intros Hdel. cbn zeta. split.
  2:{ intros ->. apply selectDefaultRoute_nil. }
  intros Hne.
  destruct (bool_decide (selectedRouteID Route st = Some deleted)) eqn:Hsel.
  2:{ unfold handleDeleteRoute, selection_after_delete.
      cbn [store_routes selectedRouteID]. rewrite Hsel.
      apply selectDefaultRoute_of_undefined. }
  revert Hne. unfold handleDeleteRoute, selection_after_delete.
  cbn [store_routes selectedRouteID]. rewrite Hsel, Hdel.
  destruct (store_routes Route st) as [|r0 rest]; [intros []; reflexivity|].
  replace (0 <? Z.of_nat (length (r0 :: rest))) with true
    by (symmetry; apply Z.ltb_lt; cbn [length]; lia).
  cbn [lookup list_lookup fmap option_fmap option_map List.filter].
  destruct (bool_decide (id r0 = deleted)) eqn:Hr0; cbn [negb].
  - apply bool_decide_eq_true in Hr0. rewrite Hr0.
    destruct (List.filter _ rest) as [|r1 rest'] eqn:Hrest;
      [intros []; reflexivity|].
    intros _. pose proof (selectedRoute_removed deleted rest) as Hrm.
    rewrite Hrest in Hrm. rewrite selectDefaultRoute_cons, Hrm.
    reflexivity.
  - intros _. rewrite selectDefaultRoute_cons, selectedRoute_first.
    cbn [fmap option_fmap option_map truthy_opt head].
    destruct (truthy (id r0)); reflexivity.
Qed.
End DeleteThenSelect.

Lemma delete_selects_first_remaining_witness :
  let deleteRoute :=
    fun d => List.filter (fun r : jsstring => negb (bool_decide (r = d))) in
  let st :=
    {| store_routes := [js "a"; js "b"; js "c"];
       selectedRouteID := Some (js "a") |} in
  let st' := handleDeleteRoute jsstring (fun r => r) deleteRoute (js "a") st in
  selectDefaultRoute jsstring (fun r => r) (store_routes jsstring st')
    (selectedRouteID jsstring st')
  = Some (js "b").
Proof.
  intros deleteRoute st.
  destruct (delete_selects_first_remaining (fun r : jsstring => r)
              deleteRoute (js "a") st) as [Hfirst _].
  - reflexivity.
  - apply Hfirst. discriminate.
Defined.

(** *** Resizing the split pane *)

(** X15: starting a resize never touches local storage and switches
    the pane's pointer events to 'none'; finishing it switches them to
    'auto'; while [ref.current] is [null] neither handler sets a
    style. *)
Theorem resize_toggles_pointer_events (b : Browser) (i : float)
    (sizes : list float) :
  let p := render_Splitter b in
  localStorage (onResizeStarted p b) = localStorage b
  /\ ref_pointerEvents (onResizeStarted p b)
     = (fun _ => js "none") <$> ref_pointerEvents b
  /\ ref_pointerEvents (onResizeFinished p i sizes (onResizeStarted p b))
     = (fun _ => js "auto") <$> ref_pointerEvents b
  /\ (ref_pointerEvents b = None ->
      ref_pointerEvents (onResizeFinished p i sizes (onResizeStarted p b))
      = None).
Proof.
  cbn -[js]. destruct (ref_pointerEvents b); repeat split; discriminate.
Qed.

Lemma resize_all_other_keys resizes (b : Browser) (key : jsstring) :
  key <> js "project-board-splitter-sizes" ->
  localStorage (resize_all resizes b) !! key = localStorage b !! key.
Proof.
  intros Hkey. unfold resize_all. revert b.
  induction resizes as [|[i sizes] resizes IH]; intros b; [reflexivity|].
  cbn [fold_left]. rewrite IH.
  unfold render_Splitter, useLocalStorage, handleResize. cbn -[js].
  apply lookup_insert_ne. congruence.
Qed.

(** X16: after any sequence of finished resizes the key
    'project-board-splitter-sizes' holds the JSON of the sizes of the
    last one, the sizes read from then on are those ([null] for [NaN]
    and the infinities, [0] for negative zero, the last sizes
    themselves when they are finite and not negative zero), and no
    other key of local storage has changed. *)
Theorem last_resize_wins resizes (i : float) (sizes : list float)
    (b : Browser) :
  let b' := resize_all (resizes ++ [(i, sizes)]) b in
  localStorage b' !! js "project-board-splitter-sizes"
  = Some (json_array sizes)
  /\ initialSizes (render_Splitter b') = json_array sizes
  /\ (forallb json_exact sizes = true ->
      initialSizes (render_Splitter b') = Some <$> sizes)
  /\ (forall key, key <> js "project-board-splitter-sizes" ->
        localStorage b' !! key = localStorage b !! key).
Proof.
  cbn zeta.
  assert (Hlast : localStorage (resize_all (resizes ++ [(i, sizes)]) b)
                    !! js "project-board-splitter-sizes"
                  = Some (json_array sizes)).
  { unfold resize_all. rewrite fold_left_app. cbn [fold_left].
    unfold render_Splitter, useLocalStorage, handleResize. cbn -[js].
    apply lookup_insert_eq. }
  assert (Hread : initialSizes
                    (render_Splitter
                       (resize_all (resizes ++ [(i, sizes)]) b))
                  = json_array sizes).
  { unfold render_Splitter at 1, useLocalStorage. cbn -[js resize_all].
    rewrite Hlast. reflexivity. }
  split; [exact Hlast|]. split; [exact Hread|]. split.
  - intros Hexact. rewrite Hread. apply json_array_exact. exact Hexact.
  - intros key Hkey. apply resize_all_other_keys. exact Hkey.
Qed.
